(** * A shallow embedding of the skeinrs dual-spigot pipeline

    Covered here: the MIDI serialiser of [spigot_midi], the playback loop
    and the orchestrator state machine of [leap_spigot], and the dual
    stream of [dual_spigot].  Integers of the Rust code are [Z] (or [nat]
    for [usize] indices and positions), with the wrap-around of fixed-width
    arithmetic written out where it can occur; a Rust panic is [None]. *)

From Stdlib Require Import ZArith List String Ascii Bool Lia QArith Lqa Sorting.Sorted.
Import ListNotations.
Local Open Scope Z_scope.
Local Open Scope list_scope.

(* ------------------------------------------------------------------ *)
(** ** Fixed-width helpers *)

Definition u32_max : Z := 2 ^ 32.
Definition u64_max : Z := 2 ^ 64.

(** The range of a Rust [u32]. *)
Definition is_u32 (v : Z) : Prop := 0 <= v < u32_max.

(** In-range update of a fixed-size array ([bytes[i] = b]). *)
Fixpoint set_nth {A} (i : nat) (x : A) (l : list A) : list A :=
  match l, i with
  | [], _ => []
  | _ :: t, O => x :: t
  | h :: t, S i' => h :: set_nth i' x t
  end.

(* ------------------------------------------------------------------ *)
(** ** leap_spigot/src/player.rs : [ticks_to_ms] *)

(** [fn ticks_to_ms(ticks: u32, tpq: u32, bpm: u32) -> u64]:
    [ms_per_beat = 60_000u64 / bpm.max(1) as u64;
     (ticks as u64 * ms_per_beat / tpq.max(1) as u64).max(50)].
    The u64 product is written with its wrap-around. *)
Definition ticks_to_ms (ticks tpq bpm : Z) : Z :=
  let ms_per_beat := 60000 / Z.max bpm 1 in
  Z.max (((ticks * ms_per_beat) mod u64_max) / Z.max tpq 1) 50.

(** The formula as the spec writes it: [ticks * (60000 / bpm) / tpq],
    floored at 50; it has no value where a divisor is zero. *)
Definition spec_ticks_to_ms (ticks tpq bpm : Z) : option Z :=
  if (bpm =? 0) || (tpq =? 0) then None
  else Some (Z.max (ticks * (60000 / bpm) / tpq) 50).

(* ------------------------------------------------------------------ *)
(** ** spigot_midi/src/lib.rs : [write_vlq] *)

(** The [while value > 0] loop of [write_vlq]: [i] is the index of the
    last byte written into the 4-byte array; [i -= 1] at [i = 0] is a
    [usize] underflow, i.e. a panic ([None]).  The recursion is on [i],
    which bounds the number of iterations. *)
Fixpoint vlq_loop (value : Z) (i : nat) (bytes : list Z) : option (nat * list Z) :=
  if value >? 0 then
    match i with
    | O => None
    | S i' =>
        vlq_loop (Z.shiftr value 7) i'
          (set_nth i' (Z.lor (Z.land value 127) 128) bytes)
    end
  else Some (i, bytes).

(** [fn write_vlq(buf: &mut Vec<u8>, mut value: u32)]: returns the new
    contents of [buf], or [None] where the Rust code panics. *)
Definition write_vlq (buf : list Z) (value : Z) : option (list Z) :=
  let bytes := set_nth 3 (Z.land value 127) [0; 0; 0; 0] in
  match vlq_loop (Z.shiftr value 7) 3 bytes with
  | Some (i, b) => Some (buf ++ skipn i b)
  | None => None
  end.

(** The variable-length quantity as the spec describes it: 7-bit groups,
    most significant first, bit 7 set on every byte but the last. *)
Fixpoint vlq_groups (fuel : nat) (v : Z) : list Z :=
  match fuel with
  | O => []
  | S f => if v / 128 =? 0 then [v mod 128]
           else vlq_groups f (v / 128) ++ [v mod 128]
  end.

Definition spec_vlq (v : Z) : list Z :=
  let gs := vlq_groups 5 v in
  map (fun g => g + 128) (removelast gs) ++ [last gs 0].

(** Decoding a variable-length quantity. *)
Definition vlq_decode (l : list Z) : Z :=
  fold_left (fun acc b => acc * 128 + b mod 128) l 0.

(* ------------------------------------------------------------------ *)
(** ** spigot_midi/src/lib.rs : [MidiTrack::to_bytes] *)

(** The bytes of an ASCII literal such as [b"MThd"]. *)
Definition ascii_bytes (s : string) : list Z :=
  map (fun c => Z.of_nat (nat_of_ascii c)) (list_ascii_of_string s).

(** [v.to_be_bytes()] for a [w]-byte unsigned [v]:
    byte [k] from the end is [(v >> 8k) & 0xFF]. *)
Definition to_be_bytes (w : nat) (v : Z) : list Z :=
  map (fun k => Z.land (Z.shiftr v (8 * Z.of_nat k)) 255) (rev (seq 0 w)).

(** [pub struct Note]. *)
Record Note := mkNote {
  pitch    : Z;   (* u8 *)
  duration : Z;   (* u32, ticks *)
  velocity : Z    (* u8 *)
}.

(** [pub struct MidiTrack]; [description] is kept as its UTF-8 bytes
    ([self.description.as_bytes()]). *)
Record MidiTrack := mkMidiTrack {
  notes             : list Note;
  ticks_per_quarter : Z;   (* u16 *)
  tempo_bpm         : Z;   (* u32 *)
  instrument        : Z;   (* u8 *)
  channel           : Z;   (* u8 *)
  description       : list Z
}.

(** The [for note in &self.notes] loop of [build_track_chunk]. *)
Fixpoint note_events (ch : Z) (ns : list Note) (t : list Z) : option (list Z) :=
  match ns with
  | [] => Some t
  | n :: ns' =>
      let t := t ++ [0; Z.lor 144 ch; pitch n; velocity n] in
      match write_vlq t (duration n) with
      | None => None
      | Some t => note_events ch ns' (t ++ [Z.lor 128 ch; pitch n; 0])
      end
  end.

(** [fn build_track_chunk(&self) -> Vec<u8>]; [None] where it panics
    ([60_000_000u32 / 0], or a [write_vlq] panic). *)
Definition build_track_chunk (tr : MidiTrack) : option (list Z) :=
  let ch := Z.land (channel tr) 15 in
  if tempo_bpm tr =? 0 then None else
  let micros := 60000000 / tempo_bpm tr in
  let t := [0; 255; 81; 3;
            Z.land (Z.shiftr micros 16) 255;
            Z.land (Z.shiftr micros 8) 255;
            Z.land micros 255] in
  let name := description tr in
  let t := t ++ [0; 255; 3] in
  match write_vlq t (Z.of_nat (List.length name) mod u32_max) with
  | None => None
  | Some t =>
      let t := t ++ name ++ [0; Z.lor 192 ch; instrument tr] in
      match note_events ch (notes tr) t with
      | None => None
      | Some t => Some (t ++ [0; 255; 47; 0])
      end
  end.

(** [pub fn to_bytes(&self) -> Vec<u8>]. *)
Definition to_bytes (tr : MidiTrack) : option (list Z) :=
  match build_track_chunk tr with
  | None => None
  | Some track =>
      Some (ascii_bytes "MThd" ++ to_be_bytes 4 6 ++ to_be_bytes 2 0 ++
            to_be_bytes 2 1 ++ to_be_bytes 2 (ticks_per_quarter tr) ++
            ascii_bytes "MTrk" ++ to_be_bytes 4 (Z.of_nat (List.length track) mod u32_max) ++
            track)
  end.

(** The file layout as the spec describes it, for a single-track file.
    [be n v] is the [n]-byte big-endian form of [v], defined only when [v]
    fits in [n] bytes.  Every track event is preceded by its delta-time:
    0, except the note-off, whose delta-time is the note's duration. *)
Definition be (n : nat) (v : Z) : option (list Z) :=
  if (0 <=? v) && (v <? 256 ^ Z.of_nat n)
  then Some (map (fun k => (v / 256 ^ Z.of_nat k) mod 256) (rev (seq 0 n)))
  else None.

Definition spec_note_bytes (ch : Z) (n : Note) : list Z :=
  [0; 144 + ch; pitch n; velocity n] ++ spec_vlq (duration n) ++ [128 + ch; pitch n; 0].

Definition spec_track_payload (tr : MidiTrack) : option (list Z) :=
  match be 3 (60000000 / tempo_bpm tr) with
  | None => None
  | Some tempo =>
      Some ([0; 255; 81; 3] ++ tempo ++
            [0; 255; 3] ++ spec_vlq (Z.of_nat (List.length (description tr))) ++ description tr ++
            [0; 192 + channel tr; instrument tr] ++
            flat_map (spec_note_bytes (channel tr)) (notes tr) ++
            [0; 255; 47; 0])
  end.

Definition spec_midi_file (tr : MidiTrack) : option (list Z) :=
  match spec_track_payload tr with
  | None => None
  | Some payload =>
      match be 4 6, be 2 0, be 2 1, be 2 (ticks_per_quarter tr),
            be 4 (Z.of_nat (List.length payload)) with
      | Some len, Some fmt, Some ntrks, Some division, Some tlen =>
          Some (ascii_bytes "MThd" ++ len ++ fmt ++ ntrks ++ division ++
                ascii_bytes "MTrk" ++ tlen ++ payload)
      | _, _, _, _, _ => None
      end
  end.

(** What [MidiComposer] guarantees of the tracks it builds: [tempo] asserts
    1..=300 BPM, [ticks_per_quarter] asserts a non-zero u16, [channel] masks
    to 0..=15, [velocity] and [instrument_raw] clamp to 127, [note_for]
    clamps pitches to 127 and [ticks_for] returns a u32. *)
Definition composed (tr : MidiTrack) : Prop :=
  1 <= tempo_bpm tr <= 300 /\ 1 <= ticks_per_quarter tr < 2 ^ 16 /\
  0 <= channel tr <= 15 /\ 0 <= instrument tr <= 127 /\
  Forall (fun n => 0 <= pitch n <= 127 /\ 0 <= velocity n <= 127 /\ is_u32 (duration n))
    (notes tr).

(* ------------------------------------------------------------------ *)
(** ** spigot_midi/src/lib.rs : instruments, scales, pitch and duration
    maps, the composer and the multi-track writer *)

(** The display names ([&'static str] fields and [GeneralMidi::name]) are
    not modelled.  [MidiComposer] owns a [DualStream]; [compose] is given
    the pairs [self.stream.zip_take(n)] returned, so the stream itself
    (and [drop_left], [drop_right], [twist], which only move it) is left
    out.  [u32] products are written with their wrap-around. *)
Module Composer.

(** [pub enum GeneralMidi] ([#[repr(u8)]]), in declaration order. *)
Inductive GeneralMidi :=
| AcousticGrandPiano
| BrightAcousticPiano
| ElectricGrandPiano
| HonkyTonkPiano
| ElectricPiano1
| ElectricPiano2
| Harpsichord
| Clavinet
| Celesta
| Glockenspiel
| MusicBox
| Vibraphone
| Marimba
| Xylophone
| TubularBells
| Dulcimer
| DrawbarOrgan
| PercussiveOrgan
| RockOrgan
| ChurchOrgan
| ReedOrgan
| Accordion
| Harmonica
| TangoAccordion
| AcousticGuitarNylon
| AcousticGuitarSteel
| ElectricGuitarJazz
| ElectricGuitarClean
| ElectricGuitarMuted
| OverdrivenGuitar
| DistortionGuitar
| GuitarHarmonics
| AcousticBass
| ElectricBassFinger
| ElectricBassPick
| FretlessBass
| SlapBass1
| SlapBass2
| SynthBass1
| SynthBass2
| Violin
| Viola
| Cello
| Contrabass
| TremoloStrings
| PizzicatoStrings
| OrchestralHarp
| Timpani
| StringEnsemble1
| StringEnsemble2
| SynthStrings1
| SynthStrings2
| ChoirAahs
| VoiceOohs
| SynthVoice
| OrchestraHit
| Trumpet
| Trombone
| Tuba
| MutedTrumpet
| FrenchHorn
| BrassSection
| SynthBrass1
| SynthBrass2
| SopranoSax
| AltoSax
| TenorSax
| BaritoneSax
| Oboe
| EnglishHorn
| Bassoon
| Clarinet
| Piccolo
| Flute
| Recorder
| PanFlute
| BlownBottle
| Shakuhachi
| Whistle
| Ocarina
| Lead1Square
| Lead2Sawtooth
| Lead3Calliope
| Lead4Chiff
| Lead5Charang
| Lead6Voice
| Lead7Fifths
| Lead8BassLead
| Pad1NewAge
| Pad2Warm
| Pad3Polysynth
| Pad4Choir
| Pad5Bowed
| Pad6Metallic
| Pad7Halo
| Pad8Sweep
| Fx1Rain
| Fx2Soundtrack
| Fx3Crystal
| Fx4Atmosphere
| Fx5Brightness
| Fx6Goblins
| Fx7Echoes
| Fx8Scifi
| Sitar
| Banjo
| Shamisen
| Koto
| Kalimba
| BagPipe
| Fiddle
| Shanai
| TinkleBell
| Agogo
| SteelDrums
| Woodblock
| TaikoDrum
| MelodicTom
| SynthDrum
| ReverseCymbal
| GuitarFretNoise
| BreathNoise
| Seashore
| BirdTweet
| TelephoneRing
| Helicopter
| Applause
| Gunshot.

(** [GeneralMidi::program]: [self as u8], the declared discriminant. *)
Definition program (g : GeneralMidi) : Z :=
  match g with
  | AcousticGrandPiano => 0
  | BrightAcousticPiano => 1
  | ElectricGrandPiano => 2
  | HonkyTonkPiano => 3
  | ElectricPiano1 => 4
  | ElectricPiano2 => 5
  | Harpsichord => 6
  | Clavinet => 7
  | Celesta => 8
  | Glockenspiel => 9
  | MusicBox => 10
  | Vibraphone => 11
  | Marimba => 12
  | Xylophone => 13
  | TubularBells => 14
  | Dulcimer => 15
  | DrawbarOrgan => 16
  | PercussiveOrgan => 17
  | RockOrgan => 18
  | ChurchOrgan => 19
  | ReedOrgan => 20
  | Accordion => 21
  | Harmonica => 22
  | TangoAccordion => 23
  | AcousticGuitarNylon => 24
  | AcousticGuitarSteel => 25
  | ElectricGuitarJazz => 26
  | ElectricGuitarClean => 27
  | ElectricGuitarMuted => 28
  | OverdrivenGuitar => 29
  | DistortionGuitar => 30
  | GuitarHarmonics => 31
  | AcousticBass => 32
  | ElectricBassFinger => 33
  | ElectricBassPick => 34
  | FretlessBass => 35
  | SlapBass1 => 36
  | SlapBass2 => 37
  | SynthBass1 => 38
  | SynthBass2 => 39
  | Violin => 40
  | Viola => 41
  | Cello => 42
  | Contrabass => 43
  | TremoloStrings => 44
  | PizzicatoStrings => 45
  | OrchestralHarp => 46
  | Timpani => 47
  | StringEnsemble1 => 48
  | StringEnsemble2 => 49
  | SynthStrings1 => 50
  | SynthStrings2 => 51
  | ChoirAahs => 52
  | VoiceOohs => 53
  | SynthVoice => 54
  | OrchestraHit => 55
  | Trumpet => 56
  | Trombone => 57
  | Tuba => 58
  | MutedTrumpet => 59
  | FrenchHorn => 60
  | BrassSection => 61
  | SynthBrass1 => 62
  | SynthBrass2 => 63
  | SopranoSax => 64
  | AltoSax => 65
  | TenorSax => 66
  | BaritoneSax => 67
  | Oboe => 68
  | EnglishHorn => 69
  | Bassoon => 70
  | Clarinet => 71
  | Piccolo => 72
  | Flute => 73
  | Recorder => 74
  | PanFlute => 75
  | BlownBottle => 76
  | Shakuhachi => 77
  | Whistle => 78
  | Ocarina => 79
  | Lead1Square => 80
  | Lead2Sawtooth => 81
  | Lead3Calliope => 82
  | Lead4Chiff => 83
  | Lead5Charang => 84
  | Lead6Voice => 85
  | Lead7Fifths => 86
  | Lead8BassLead => 87
  | Pad1NewAge => 88
  | Pad2Warm => 89
  | Pad3Polysynth => 90
  | Pad4Choir => 91
  | Pad5Bowed => 92
  | Pad6Metallic => 93
  | Pad7Halo => 94
  | Pad8Sweep => 95
  | Fx1Rain => 96
  | Fx2Soundtrack => 97
  | Fx3Crystal => 98
  | Fx4Atmosphere => 99
  | Fx5Brightness => 100
  | Fx6Goblins => 101
  | Fx7Echoes => 102
  | Fx8Scifi => 103
  | Sitar => 104
  | Banjo => 105
  | Shamisen => 106
  | Koto => 107
  | Kalimba => 108
  | BagPipe => 109
  | Fiddle => 110
  | Shanai => 111
  | TinkleBell => 112
  | Agogo => 113
  | SteelDrums => 114
  | Woodblock => 115
  | TaikoDrum => 116
  | MelodicTom => 117
  | SynthDrum => 118
  | ReverseCymbal => 119
  | GuitarFretNoise => 120
  | BreathNoise => 121
  | Seashore => 122
  | BirdTweet => 123
  | TelephoneRing => 124
  | Helicopter => 125
  | Applause => 126
  | Gunshot => 127
  end.

(** Every variant, in declaration order. *)
Definition all_general_midi : list GeneralMidi :=
  [AcousticGrandPiano; BrightAcousticPiano; ElectricGrandPiano; HonkyTonkPiano;
   ElectricPiano1; ElectricPiano2; Harpsichord; Clavinet;
   Celesta; Glockenspiel; MusicBox; Vibraphone;
   Marimba; Xylophone; TubularBells; Dulcimer;
   DrawbarOrgan; PercussiveOrgan; RockOrgan; ChurchOrgan;
   ReedOrgan; Accordion; Harmonica; TangoAccordion;
   AcousticGuitarNylon; AcousticGuitarSteel; ElectricGuitarJazz; ElectricGuitarClean;
   ElectricGuitarMuted; OverdrivenGuitar; DistortionGuitar; GuitarHarmonics;
   AcousticBass; ElectricBassFinger; ElectricBassPick; FretlessBass;
   SlapBass1; SlapBass2; SynthBass1; SynthBass2;
   Violin; Viola; Cello; Contrabass;
   TremoloStrings; PizzicatoStrings; OrchestralHarp; Timpani;
   StringEnsemble1; StringEnsemble2; SynthStrings1; SynthStrings2;
   ChoirAahs; VoiceOohs; SynthVoice; OrchestraHit;
   Trumpet; Trombone; Tuba; MutedTrumpet;
   FrenchHorn; BrassSection; SynthBrass1; SynthBrass2;
   SopranoSax; AltoSax; TenorSax; BaritoneSax;
   Oboe; EnglishHorn; Bassoon; Clarinet;
   Piccolo; Flute; Recorder; PanFlute;
   BlownBottle; Shakuhachi; Whistle; Ocarina;
   Lead1Square; Lead2Sawtooth; Lead3Calliope; Lead4Chiff;
   Lead5Charang; Lead6Voice; Lead7Fifths; Lead8BassLead;
   Pad1NewAge; Pad2Warm; Pad3Polysynth; Pad4Choir;
   Pad5Bowed; Pad6Metallic; Pad7Halo; Pad8Sweep;
   Fx1Rain; Fx2Soundtrack; Fx3Crystal; Fx4Atmosphere;
   Fx5Brightness; Fx6Goblins; Fx7Echoes; Fx8Scifi;
   Sitar; Banjo; Shamisen; Koto;
   Kalimba; BagPipe; Fiddle; Shanai;
   TinkleBell; Agogo; SteelDrums; Woodblock;
   TaikoDrum; MelodicTom; SynthDrum; ReverseCymbal;
   GuitarFretNoise; BreathNoise; Seashore; BirdTweet;
   TelephoneRing; Helicopter; Applause; Gunshot].

(** [pub struct Scale]: semitone offsets from the root ([Vec<u8>]). *)
Record Scale := mkScale { intervals : list Z }.

Definition scale_chromatic : Scale := mkScale (map Z.of_nat (seq 0 12)).
Definition scale_major : Scale := mkScale [0; 2; 4; 5; 7; 9; 11].
Definition scale_minor : Scale := mkScale [0; 2; 3; 5; 7; 8; 10].
Definition scale_pentatonic_major : Scale := mkScale [0; 2; 4; 7; 9].
Definition scale_pentatonic_minor : Scale := mkScale [0; 3; 5; 7; 10].
Definition scale_dorian : Scale := mkScale [0; 2; 3; 5; 7; 9; 10].
Definition scale_phrygian : Scale := mkScale [0; 1; 3; 5; 7; 8; 10].
Definition scale_lydian : Scale := mkScale [0; 2; 4; 6; 7; 9; 11].
Definition scale_mixolydian : Scale := mkScale [0; 2; 4; 5; 7; 9; 10].
Definition scale_whole_tone : Scale := mkScale [0; 2; 4; 6; 8; 10].
Definition scale_diminished : Scale := mkScale [0; 2; 3; 5; 6; 8; 9; 11].
Definition scale_custom (iv : list Z) : Scale := mkScale iv.

(** The built-in scales. *)
Definition builtin_scales : list Scale :=
  [scale_chromatic; scale_major; scale_minor; scale_pentatonic_major;
   scale_pentatonic_minor; scale_dorian; scale_phrygian; scale_lydian;
   scale_mixolydian; scale_whole_tone; scale_diminished].

(** [pub struct PitchMap]. *)
Record PitchMap := mkPitchMap { root : Z; scale : Scale }.

Definition pitch_major (r : Z) : PitchMap := mkPitchMap r scale_major.

(** [PitchMap::note_for]: [None] is the panic of [% n] when the scale is
    empty.  The [usize] arithmetic cannot overflow on [u8] inputs. *)
Definition note_for (pm : PitchMap) (d : Z) : option Z :=
  let iv := intervals (scale pm) in
  let n := Z.of_nat (List.length iv) in
  if n =? 0 then None else
  let octave := d / n in
  let degree := d mod n in
  let semitone := nth (Z.to_nat degree) iv 0 in
  let note := root pm + octave * 12 + semitone in
  Some (Z.min note 127).

(** [pub struct DurationMap]: the [Vec<u32>] table. *)
Record DurationMap := mkDurationMap { table : list Z }.

(** [DurationMap::musical(ticks_per_quarter)]. *)
Definition musical (q : Z) : DurationMap :=
  mkDurationMap
    [q / 8; q / 4; (q * 3 mod u32_max) / 8; q / 2; (q * 3 mod u32_max) / 4; q;
     (q * 3 mod u32_max) / 2; q * 2 mod u32_max; q * 3 mod u32_max; q * 4 mod u32_max].

(** The digits [0..base as u32]. *)
Definition digits (base : Z) : list Z := map Z.of_nat (seq 0 (Z.to_nat base)).

(** [DurationMap::linear(unit_ticks, base)]. *)
Definition linear (unit_ticks base : Z) : DurationMap :=
  mkDurationMap (map (fun d => (d + 1) * unit_ticks mod u32_max) (digits base)).

(** [DurationMap::exponential(unit_ticks, base)]: [1u32 << d.min(16)]. *)
Definition exponential (unit_ticks base : Z) : DurationMap :=
  mkDurationMap (map (fun d => unit_ticks * Z.shiftl 1 (Z.min d 16) mod u32_max)
                     (digits base)).

(** [DurationMap::fixed(ticks, base)]: [vec![ticks; base as usize]]. *)
Definition fixed (ticks base : Z) : DurationMap :=
  mkDurationMap (repeat ticks (Z.to_nat base)).

Definition custom (t : list Z) : DurationMap := mkDurationMap t.

(** [DurationMap::ticks_for]. *)
Definition ticks_for (dm : DurationMap) (d : Z) : Z :=
  match table dm with
  | [] => 120
  | t => nth (Z.to_nat (d mod Z.of_nat (List.length t))) t 0
  end.

(** [pub struct MidiComposer], without its stream. *)
Record MidiComposer := mkMidiComposer {
  tempo_bpm    : Z;   (* u32 *)
  instrument   : Z;   (* u8 *)
  pitch_map    : PitchMap;
  duration_map : DurationMap;
  velocity     : Z;   (* u8 *)
  channel      : Z;   (* u8 *)
  tpq          : Z;   (* u16 *)
  description  : list Z
}.

(** [MidiComposer::new]: the defaults. *)
Definition new : MidiComposer :=
  mkMidiComposer 120 (program AcousticGrandPiano) (pitch_major 60) (musical 480)
                 100 0 480 (ascii_bytes "spigot_midi").

(** The builder setters; [tempo] and [ticks_per_quarter] assert ([None]). *)
Inductive Setter :=
| Tempo (bpm : Z)
| Instrument (gm : GeneralMidi)
| InstrumentRaw (p : Z)
| SetPitchMap (pm : PitchMap)
| SetDurationMap (dm : DurationMap)
| TicksPerQuarter (t : Z)
| Velocity (v : Z)
| Channel (ch : Z)
| Description (s : list Z).

Definition apply_setter (c : MidiComposer) (s : Setter) : option MidiComposer :=
  let '(mkMidiComposer bpm0 ins pm dm vel ch tq desc) := c in
  match s with
  | Tempo bpm =>
      if (0 <? bpm) && (bpm <=? 300)
      then Some (mkMidiComposer bpm ins pm dm vel ch tq desc) else None
  | Instrument gm => Some (mkMidiComposer bpm0 (program gm) pm dm vel ch tq desc)
  | InstrumentRaw p => Some (mkMidiComposer bpm0 (Z.min p 127) pm dm vel ch tq desc)
  | SetPitchMap pm' => Some (mkMidiComposer bpm0 ins pm' dm vel ch tq desc)
  | SetDurationMap dm' => Some (mkMidiComposer bpm0 ins pm dm' vel ch tq desc)
  | TicksPerQuarter t =>
      if 0 <? t then Some (mkMidiComposer bpm0 ins pm dm vel ch t desc) else None
  | Velocity v => Some (mkMidiComposer bpm0 ins pm dm (Z.min v 127) ch tq desc)
  | Channel c' => Some (mkMidiComposer bpm0 ins pm dm vel (Z.land c' 15) tq desc)
  | Description d => Some (mkMidiComposer bpm0 ins pm dm vel ch tq d)
  end.

(** A chain of setter calls, [None] at the first failed assertion. *)
Fixpoint build (c : MidiComposer) (ss : list Setter) : option MidiComposer :=
  match ss with
  | [] => Some c
  | s :: ss' =>
      match apply_setter c s with
      | Some c' => build c' ss'
      | None => None
      end
  end.

(** The Rust types of the setters' arguments: [u32] tempo, [u8] program,
    velocity and channel, [u16] resolution; a [PitchMap] holds [u8]s and
    a [DurationMap] [u32]s. *)
Definition setter_typed (s : Setter) : Prop :=
  match s with
  | Tempo bpm => is_u32 bpm
  | Instrument _ => True
  | InstrumentRaw p => 0 <= p < 256
  | SetPitchMap pm =>
      0 <= root pm < 256 /\ Forall (fun x => 0 <= x < 256) (intervals (scale pm))
  | SetDurationMap dm => Forall is_u32 (table dm)
  | TicksPerQuarter t => 0 <= t < 2 ^ 16
  | Velocity v => 0 <= v < 256
  | Channel ch => 0 <= ch < 256
  | Description _ => True
  end.

(** What a composer built by the setters holds. *)
Definition composer_ok (c : MidiComposer) : Prop :=
  1 <= tempo_bpm c <= 300 /\ 1 <= tpq c < 2 ^ 16 /\ 0 <= channel c <= 15 /\
  0 <= instrument c <= 127 /\ 0 <= velocity c <= 127 /\
  0 <= root (pitch_map c) < 256 /\
  Forall (fun x => 0 <= x < 256) (intervals (scale (pitch_map c))) /\
  Forall is_u32 (table (duration_map c)).

(** The closure of [compose]: one [(left, right)] pair to a [Note]. *)
Definition resolve (c : MidiComposer) (lr : Z * Z) : option Note :=
  let '(l, r) := lr in
  match note_for (pitch_map c) r with
  | Some p => Some (mkNote p (ticks_for (duration_map c) l) (velocity c))
  | None => None
  end.

Fixpoint resolve_all (c : MidiComposer) (pairs : list (Z * Z)) : option (list Note) :=
  match pairs with
  | [] => Some []
  | lr :: rest =>
      match resolve c lr with
      | None => None
      | Some nt =>
          match resolve_all c rest with
          | Some ns => Some (nt :: ns)
          | None => None
          end
      end
  end.

Definition track_of (c : MidiComposer) (ns : list Note) : MidiTrack :=
  mkMidiTrack ns (tpq c) (tempo_bpm c) (instrument c) (channel c) (description c).

(** [MidiComposer::compose(n)], given [pairs = self.stream.zip_take(n)]:
    [Some (inl track)] is [Ok], [Some (inr e)] is [Err], [None] a panic. *)
Definition compose (c : MidiComposer) (n : nat) (pairs : list (Z * Z))
  : option (MidiTrack + string) :=
  if Nat.eqb n 0 then Some (inr "n must be > 0"%string) else
  match resolve_all c pairs with
  | Some ns => Some (inl (track_of c ns))
  | None => None
  end.

(** [MidiComposer::compose_filtered(n, pred)], for a predicate without
    side effects. *)
Definition compose_filtered (c : MidiComposer) (n : nat) (pred : Z -> Z -> bool)
    (pairs : list (Z * Z)) : option (MidiTrack + string) :=
  if Nat.eqb n 0 then Some (inr "n must be > 0"%string) else
  match resolve_all c (filter (fun '(l, r) => pred l r) pairs) with
  | Some [] => Some (inr "filter rejected all notes"%string)
  | Some ns => Some (inl (track_of c ns))
  | None => None
  end.

(** The [for track in tracks] loop of [multi_track_bytes]. *)
Fixpoint track_chunks (ts : list MidiTrack) (out : list Z) : option (list Z) :=
  match ts with
  | [] => Some out
  | tr :: rest =>
      match build_track_chunk tr with
      | None => None
      | Some chunk =>
          track_chunks rest
            (out ++ ascii_bytes "MTrk" ++
             to_be_bytes 4 (Z.of_nat (List.length chunk) mod u32_max) ++ chunk)
      end
  end.

(** The bytes one iteration of that loop appends for a built chunk. *)
Definition chunk_bytes (ch : list Z) : list Z :=
  ascii_bytes "MTrk" ++ to_be_bytes 4 (Z.of_nat (List.length ch) mod u32_max) ++ ch.

(** [pub fn multi_track_bytes(tracks: &[MidiTrack]) -> Vec<u8>];
    [tracks.len() as u16] keeps the low 16 bits. *)
Definition multi_track_bytes (ts : list MidiTrack) : option (list Z) :=
  match ts with
  | [] => Some []
  | t0 :: _ =>
      track_chunks ts
        (ascii_bytes "MThd" ++ to_be_bytes 4 6 ++ to_be_bytes 2 1 ++
         to_be_bytes 2 (Z.of_nat (List.length ts) mod 2 ^ 16) ++
         to_be_bytes 2 (ticks_per_quarter t0))
  end.

End Composer.

(* ------------------------------------------------------------------ *)
(** ** The interface of a dual stream used by the playback thread *)

(** [DualStream::zip_next], [left_pos] and [right_pos]: the player needs
    nothing else of its private stream.  [zip_next] takes [&mut self], so
    it returns the stream's new state even when it yields no pair. *)
Module DS.
Class ZipStream (S : Type) := {
  zip_next  : S -> option (Z * Z) * S;
  left_pos  : S -> nat;
  right_pos : S -> nat
}.
End DS.
Import DS (ZipStream).

(* ------------------------------------------------------------------ *)
(** ** leap_spigot/src/player.rs : the playback thread *)

Module Player.

(** [pub enum PlayerCommand]. *)
Inductive PlayerCommand :=
| Play
| Stop
| SetInstrument (program : Z)
| SetTempo (bpm : Z)
| Quit.

(** [pub struct NoteEvent]. *)
Record NoteEvent := mkNoteEvent {
  pitch     : Z;
  duration  : Z;
  velocity  : Z;
  left_pos  : nat;
  right_pos : nat
}.

(** The observable effects of the thread, in order: calls on the MIDI
    output, [thread::sleep]s, [note_tx.send]s, and each command taken off
    the channel by [try_recv]. *)
Inductive Effect :=
| ProgramChange (channel program : Z)
| NoteOn (channel note velocity : Z)
| NoteOff (channel note : Z)
| SleepMs (ms : Z)
| Notify (ev : NoteEvent)
| Received (cmd : PlayerCommand).

(** The fixed arguments of [player_thread]. *)
Record PlayerParams := mkPlayerParams {
  pitch_map    : Z -> Z;   (* PitchMap::note_for *)
  duration_map : Z -> Z;   (* DurationMap::ticks_for *)
  p_velocity   : Z;
  p_channel    : Z
}.

(** The mutable locals of [player_thread]. *)
Record PlayerState (S : Type) := mkPlayerState {
  stream     : S;
  instrument : Z;
  tempo_bpm  : Z;
  playing    : bool
}.
Arguments mkPlayerState {S}.
Arguments stream {S}.
Arguments instrument {S}.
Arguments tempo_bpm {S}.
Arguments playing {S}.

Definition TPQ : Z := 480.

Section Loop.
Context {S : Type} `{ZipStream S} (cfg : PlayerParams).

Definition set_playing (b : bool) (st : PlayerState S) : PlayerState S :=
  mkPlayerState (stream st) (instrument st) (tempo_bpm st) b.

(** The inner [loop { match cmd_rx.try_recv() ... }] over the commands
    pending at that moment.  [None] is the [return] on [Quit]. *)
Fixpoint drain (st : PlayerState S) (cmds : list PlayerCommand)
  : list Effect * option (PlayerState S) :=
  match cmds with
  | [] => ([], Some st)
  | c :: cs =>
      match c with
      | Play =>
          let '(acts, r) := drain (set_playing true st) cs in
          (Received c :: ProgramChange (p_channel cfg) (instrument st) :: acts, r)
      | Stop =>
          let '(acts, r) := drain (set_playing false st) cs in
          (Received c :: acts, r)
      | SetInstrument p =>
          let '(acts, r) :=
            drain (mkPlayerState (stream st) p (tempo_bpm st) (playing st)) cs in
          (Received c :: ProgramChange (p_channel cfg) p :: acts, r)
      | SetTempo b =>
          let '(acts, r) :=
            drain (mkPlayerState (stream st) (instrument st) b (playing st)) cs in
          (Received c :: acts, r)
      | Quit => ([Received c], None)
      end
  end.

(** The rest of one iteration of the outer [loop], after the drain. *)
Definition play_step (st : PlayerState S) : list Effect * PlayerState S :=
  if negb (playing st) then ([SleepMs 10], st) else
  match DS.zip_next (stream st) with
  | (None, s') =>
      ([], mkPlayerState s' (instrument st) (tempo_bpm st) false)
  | (Some (left_d, right_d), s') =>
      let pitch := pitch_map cfg right_d in
      let ticks := duration_map cfg left_d in
      let millis := ticks_to_ms ticks TPQ (tempo_bpm st) in
      let ev := mkNoteEvent pitch ticks (p_velocity cfg) (DS.left_pos s') (DS.right_pos s') in
      let gap := Z.max (millis / 20) 5 in
      ([Notify ev; NoteOn (p_channel cfg) pitch (p_velocity cfg); SleepMs millis;
        NoteOff (p_channel cfg) pitch; SleepMs gap],
       mkPlayerState s' (instrument st) (tempo_bpm st) (playing st))
  end.

(** The outer [loop], one iteration per batch: [batches] lists, for each
    iteration, the commands that reached the channel since the previous
    drain (commands sent while a note sounds belong to the next batch).
    A finite list of batches gives a finite prefix of the thread's run. *)
Fixpoint run (batches : list (list PlayerCommand)) (st : PlayerState S) : list Effect :=
  match batches with
  | [] => []
  | b :: bs =>
      let '(acts, r) := drain st b in
      match r with
      | None => acts
      | Some st1 =>
          let '(acts2, st2) := play_step st1 in
          acts ++ acts2 ++ run bs st2
      end
  end.

(** [fn player_thread(...)]: the initial [program_change], then the loop. *)
Definition player_thread (s : S) (instrument0 tempo0 : Z)
    (batches : list (list PlayerCommand)) : list Effect :=
  ProgramChange (p_channel cfg) instrument0 ::
  run batches (mkPlayerState s instrument0 tempo0 false).

End Loop.
End Player.

(** A finite list of pairs as a stream, for concrete runs. *)
#[export] Instance list_zip_stream : DS.ZipStream (nat * list (Z * Z)) := {
  zip_next := fun s => match snd s with
                       | [] => (None, s)
                       | p :: l => (Some p, (S (fst s), l))
                       end;
  left_pos := fst;
  right_pos := fst
}.

(* ------------------------------------------------------------------ *)
(** ** dual_spigot : [DualStream] *)

(** Modelled from the spec: the library of [dual_spigot] and
    [spigot_stream] ([DualStream], [SpigotConfig], the cursors and the digit
    sources) is not in the sources; only its callers are.  This module
    follows the spec's sections 3, 4.1 and 6.  A digit source is
    deterministic for its configuration and produces digits strictly in
    order, so it is given by the digit it yields at each index ([None]: the
    source has terminated). *)
Module Dual.

Inductive Constant := Pi | E | Ln2 | Liouville | Champernowne | ThueMorse.

Record SpigotConfig := mkSpigotConfig { constant : Constant; base : Z }.

Class DigitSource := { digit_at : SpigotConfig -> nat -> option Z }.

(** A cursor: a configuration and the count of digits emitted so far. *)
Record Cursor := mkCursor { config : SpigotConfig; position : nat }.

(** A snippet entry: the captured pairs and the absolute range [from, to). *)
Record Snippet := mkSnippet { pairs : list (Z * Z); from : nat; to : nat }.

Record DualStream := mkDualStream {
  left     : Cursor;
  right    : Cursor;
  snippets : list (string * Snippet)   (* in insertion order *)
}.

Section Ops.
Context `{DigitSource}.

Definition fresh (cfg : SpigotConfig) : Cursor := mkCursor cfg 0.

(** [next()]: one digit, advancing the position by one. *)
Definition next (c : Cursor) : option Z * Cursor :=
  match digit_at (config c) (position c) with
  | Some d => (Some d, mkCursor (config c) (S (position c)))
  | None => (None, c)
  end.

(** [drop(n)]: advance by [n] without keeping the digits. *)
Fixpoint drop (n : nat) (c : Cursor) : Cursor :=
  match n with
  | O => c
  | S n' => drop n' (snd (next c))
  end.

(** [take(n)]: the next [n] digits (fewer if the source terminates). *)
Fixpoint take (n : nat) (c : Cursor) : list Z * Cursor :=
  match n with
  | O => ([], c)
  | S n' =>
      match next c with
      | (Some d, c') => let '(ds, c'') := take n' c' in (d :: ds, c'')
      | (None, c') => ([], c')
      end
  end.

Definition left_pos (ds : DualStream) : nat := position (left ds).
Definition right_pos (ds : DualStream) : nat := position (right ds).

(** [zip_next()]: one pair, advancing both sides; no pair once either
    side has terminated. *)
Definition zip_next (ds : DualStream) : option (Z * Z) * DualStream :=
  let '(l, lc) := next (left ds) in
  let '(r, rc) := next (right ds) in
  let ds' := mkDualStream lc rc (snippets ds) in
  match l, r with
  | Some a, Some b => (Some (a, b), ds')
  | _, _ => (None, ds')
  end.

(** [twist()]: exchange the two cursors as whole units. *)
Definition twist (ds : DualStream) : DualStream :=
  mkDualStream (right ds) (left ds) (snippets ds).

(** Store under [name]: overwrite in place, or append a new key. *)
Fixpoint store (name : string) (e : Snippet) (l : list (string * Snippet))
  : list (string * Snippet) :=
  match l with
  | [] => [(name, e)]
  | (k, v) :: t => if String.eqb k name then (k, e) :: t else (k, v) :: store name e t
  end.

Fixpoint get_snippet (name : string) (l : list (string * Snippet)) : option Snippet :=
  match l with
  | [] => None
  | (k, v) :: t => if String.eqb k name then Some v else get_snippet name t
  end.

(** The digits at [from, to) of a side, read from a fresh cursor. *)
Definition capture (cfg : SpigotConfig) (from to : nat) : list Z :=
  fst (take (to - from) (drop from (fresh cfg))).

(** [snip(name, from, to)]: rejected when [from > to]; otherwise both
    sides are replayed from fresh cursors of their configurations and the
    zipped range is stored.  The live cursors are not consulted. *)
Definition snip (ds : DualStream) (name : string) (from to : nat)
  : DualStream + string :=
  if Nat.ltb to from then inr "invalid snippet range"%string
  else
    let ls := capture (config (left ds)) from to in
    let rs := capture (config (right ds)) from to in
    inl (mkDualStream (left ds) (right ds)
           (store name (mkSnippet (combine ls rs) from to) (snippets ds))).

(** A sequence of snips, stopping at the first rejected one. *)
Fixpoint snip_all (ds : DualStream) (reqs : list (string * nat * nat))
  : DualStream + string :=
  match reqs with
  | [] => inl ds
  | (name, a, b) :: rest =>
      match snip ds name a b with
      | inl ds' => snip_all ds' rest
      | inr e => inr e
      end
  end.

End Ops.
End Dual.

#[export] Instance dual_zip_stream `{Dual.DigitSource} : DS.ZipStream Dual.DualStream := {
  zip_next := Dual.zip_next;
  left_pos := Dual.left_pos;
  right_pos := Dual.right_pos
}.

(* ------------------------------------------------------------------ *)
(** ** leap_spigot/src/ribbon.rs *)

(** [f32] arithmetic of the animation values.  An [f32] is the rational
    it denotes; an [f32] sum is the exact sum rounded to the nearest value
    with a 24-bit significand (ties to even, subnormals below [2^-126]).
    Overflow to infinity is not modelled: the animation values stay
    within [0, 2]. *)

(** [a / b] rounded to the nearest integer, ties to even ([0 < b]). *)
Definition round_half_even (a b : Z) : Z :=
  let fl := a / b in
  match Z.compare (2 * (a mod b)) b with
  | Lt => fl
  | Gt => fl + 1
  | Eq => if Z.even fl then fl else fl + 1
  end.

(** Rounding of the positive rational [n / d]: [e] is its binary exponent
    [floor (log2 (n / d))] and [2^q] the spacing of [f32] values there. *)
Definition f32_round_pos (n : Z) (d : positive) : Q :=
  let ln := Z.log2 n in
  let ld := Z.log2 (Zpos d) in
  let e := ln - ld - (if n * 2 ^ ld <? Zpos d * 2 ^ ln then 1 else 0) in
  let q := Z.max (e - 23) (-149) in
  if q <? 0 then round_half_even (n * 2 ^ (- q)) (Zpos d) # Z.to_pos (2 ^ (- q))
  else inject_Z (round_half_even n (Zpos d * 2 ^ q) * 2 ^ q).

Definition f32_round (x : Q) : Q :=
  match Qnum x with
  | Z0 => 0
  | Zpos n => f32_round_pos (Zpos n) (Qden x)
  | Zneg n => - f32_round_pos (Zpos n) (Qden x)
  end.

(** [a + b] in [f32]. *)
Definition f32_add (a b : Q) : Q := f32_round (a + b).

(** The [f32] literals [0.05], [0.08] and [0.04]. *)
Definition f32_0_05 : Q := f32_round (1 # 20).
Definition f32_0_08 : Q := f32_round (2 # 25).
Definition f32_0_04 : Q := f32_round (1 # 25).

(** The [f32] animation values are rationals rounded as above; the
    cosmetic scroll fields ([scroll_px], [scroll_vel]) and display labels
    of a ribbon are not modelled.  The colour of a patch comes from
    [digit_color], a float HSV computation, taken as a parameter. *)
Module Ribbon.

(** [pub struct Patch]. *)
Record Patch := mkPatch { digit : Z; color : Z; position : nat }.

(** [pub struct RibbonState]. *)
Record RibbonState := mkRibbonState {
  patches  : list Patch;
  capacity : nat;
  base     : Z
}.

Section Push.
Context (digit_color : Z -> Z -> Z).

(** [RibbonState::push]: [self.patches.remove(0)] when full (a panic on
    an empty vector, [None]), then [self.patches.push(..)]. *)
Definition push (r : RibbonState) (d : Z) (pos : nat) : option RibbonState :=
  let kept :=
    if Nat.leb (capacity r) (List.length (patches r)) then
      match patches r with
      | [] => None
      | _ :: t => Some t
      end
    else Some (patches r) in
  match kept with
  | None => None
  | Some ps => Some (mkRibbonState (ps ++ [mkPatch d (digit_color d (base r)) pos])
                                  (capacity r) (base r))
  end.
End Push.

(** [pub enum StitchPhase]. *)
Inductive StitchPhase :=
| Unstitched
| Stitching (progress : Q)
| Stitched
| Unstitching (progress : Q).

(** [StitchPhase::is_stitched]. *)
Definition is_stitched (p : StitchPhase) : bool :=
  match p with
  | Stitched | Stitching _ => true
  | _ => false
  end.

(** [StitchPhase::tick]: the new phase, and whether a transition completed. *)
Definition stitch_tick (p : StitchPhase) : bool * StitchPhase :=
  match p with
  | Stitching pr =>
      let pr' := f32_add pr f32_0_05 in
      if Qle_bool 1 pr' then (true, Stitched) else (false, Stitching pr')
  | Unstitching pr =>
      let pr' := f32_add pr f32_0_05 in
      if Qle_bool 1 pr' then (true, Unstitched) else (false, Unstitching pr')
  | _ => (false, p)
  end.

(** [pub struct TrayEntry] and [pub struct SnippetTray]. *)
Record TrayEntry := mkTrayEntry {
  name      : string;
  tpatches  : list (Patch * Patch);
  slide_in  : Q
}.

Record SnippetTray := mkSnippetTray { entries : list TrayEntry }.

Definition Qmin1 (x : Q) : Q := if Qle_bool x 1 then x else 1.

(** [SnippetTray::deposit]: push, then drop the oldest if over 8. *)
Definition deposit (t : SnippetTray) (nm : string) (ps : list (Patch * Patch)) : SnippetTray :=
  let es := entries t ++ [mkTrayEntry nm ps 0] in
  if Nat.ltb 8 (List.length es) then mkSnippetTray (tl es) else mkSnippetTray es.

(** [SnippetTray::tick]. *)
Definition tray_tick (t : SnippetTray) : SnippetTray :=
  mkSnippetTray (map (fun e =>
    if Qle_bool 1 (slide_in e) then e
    else mkTrayEntry (name e) (tpatches e) (Qmin1 (f32_add (slide_in e) f32_0_08)))
    (entries t)).

(** [pub struct ScissorAnimation]. *)
Record ScissorAnimation := mkScissorAnimation {
  progress    : Q;
  start_patch : nat;
  count       : nat
}.

Definition scissor_tick (a : ScissorAnimation) : ScissorAnimation :=
  mkScissorAnimation (Qmin1 (f32_add (progress a) f32_0_04)) (start_patch a) (count a).

Definition scissor_done (a : ScissorAnimation) : bool := Qle_bool 1 (progress a).

End Ribbon.

(* ------------------------------------------------------------------ *)
(** ** leap_spigot/src/app.rs : [AppState] *)

(** The [Player] handle is split in two: the commands sent on [cmd_tx]
    ([sent], in order) and the note events that [drain_notes] returns,
    an input of [tick].  The status line, labels and snippet-name buffer
    (display text) are not modelled. *)
Module App.
Import Ribbon.

Inductive PlayState := Stopped | Playing.

(** [pub enum GestureEvent]. *)
Inductive GestureEvent :=
| PullLeft (steps : nat) (velocity : Q)
| PullRight (steps : nat) (velocity : Q)
| Twist
| Clap
| Unclap
| Scissors (nm : string)
| Quit.

Record AppState := mkAppState {
  dual           : Dual.DualStream;
  left_ribbon    : RibbonState;
  right_ribbon   : RibbonState;
  sent           : list Player.PlayerCommand;
  play_state     : PlayState;
  stitch         : StitchPhase;
  tray           : SnippetTray;
  scissor_anim   : option ScissorAnimation;
  snip_start     : nat;
  note_highlight : option nat
}.

(** [self.player.play()] and friends: append to the command channel. *)
Definition send (app : AppState) (c : Player.PlayerCommand) : list Player.PlayerCommand :=
  sent app ++ [c].

(** [notes.last()]. *)
Fixpoint last_opt {A} (l : list A) : option A :=
  match l with
  | [] => None
  | [x] => Some x
  | _ :: t => last_opt t
  end.

(** [iter().position(pred)]. *)
Fixpoint position_of {A} (f : A -> bool) (l : list A) : option nat :=
  match l with
  | [] => None
  | x :: t => if f x then Some 0%nat else option_map S (position_of f t)
  end.

Section Handlers.
Context `{Dual.DigitSource} (digit_color : Z -> Z -> Z).

(** The [for _ in 0..steps] loop of a pull on one side: [side] selects the
    cursor ([true]: left). *)
Fixpoint pull (side : bool) (steps : nat) (ds : Dual.DualStream) (r : RibbonState)
  : option (Dual.DualStream * RibbonState) :=
  match steps with
  | O => Some (ds, r)
  | S n =>
      let c := if side then Dual.left ds else Dual.right ds in
      let '(d, c') := Dual.next c in
      let ds' := if side then Dual.mkDualStream c' (Dual.right ds) (Dual.snippets ds)
                 else Dual.mkDualStream (Dual.left ds) c' (Dual.snippets ds) in
      match d with
      | Some dg =>
          let pos := if side then Dual.left_pos ds' else Dual.right_pos ds' in
          match push digit_color r dg pos with
          | Some r' => pull side n ds' r'
          | None => None
          end
      | None => pull side n ds' r
      end
  end.

(** [AppState::do_snip]. *)
Definition do_snip (app : AppState) (nm : string) : AppState :=
  let from := (Dual.left_pos (dual app) - List.length (patches (left_ribbon app)))%nat in
  let to := Dual.left_pos (dual app) in
  let cnt := (to - from)%nat in
  let ds' := match Dual.snip (dual app) nm from to with
             | inl ds' => ds'
             | inr _ => dual app
             end in
  let ps := combine (patches (left_ribbon app)) (patches (right_ribbon app)) in
  mkAppState ds' (left_ribbon app) (right_ribbon app) (sent app) (play_state app)
    (stitch app) (deposit (tray app) nm ps)
    (Some (mkScissorAnimation 0 0 (Nat.min cnt (capacity (left_ribbon app)))))
    (snip_start app) (note_highlight app).

(** [AppState::handle_gesture]; [None] where a ribbon push panics. *)
Definition handle_gesture (app : AppState) (ev : GestureEvent) : option AppState :=
  match ev with
  | PullLeft steps _ =>
      match pull true steps (dual app) (left_ribbon app) with
      | Some (ds, r) =>
          Some (mkAppState ds r (right_ribbon app) (sent app) (play_state app)
                  (stitch app) (tray app) (scissor_anim app) (snip_start app)
                  (note_highlight app))
      | None => None
      end
  | PullRight steps _ =>
      match pull false steps (dual app) (right_ribbon app) with
      | Some (ds, r) =>
          Some (mkAppState ds (left_ribbon app) r (sent app) (play_state app)
                  (stitch app) (tray app) (scissor_anim app) (snip_start app)
                  (note_highlight app))
      | None => None
      end
  | Twist =>
      Some (mkAppState (Dual.twist (dual app)) (right_ribbon app) (left_ribbon app)
              (sent app) (play_state app) (stitch app) (tray app) (scissor_anim app)
              (snip_start app) (note_highlight app))
  | Clap =>
      match play_state app with
      | Stopped =>
          Some (mkAppState (dual app) (left_ribbon app) (right_ribbon app)
                  (send app Player.Play) Playing (Stitching 0) (tray app)
                  (scissor_anim app) (snip_start app) (note_highlight app))
      | Playing => Some app
      end
  | Unclap =>
      match play_state app with
      | Playing =>
          Some (mkAppState (dual app) (left_ribbon app) (right_ribbon app)
                  (send app Player.Stop) Stopped (Unstitching 0) (tray app)
                  (scissor_anim app) (snip_start app) (note_highlight app))
      | Stopped => Some app
      end
  | Scissors nm => Some (do_snip app nm)
  | Quit => Some app
  end.

End Handlers.

(** [AppState::tick], given the events [self.player.drain_notes()]
    returned.  The ribbons' [tick] only moves the scroll fields. *)
Definition tick (app : AppState) (notes : list Player.NoteEvent) : AppState :=
  let st := snd (stitch_tick (stitch app)) in
  let sc := match scissor_anim app with
            | Some a => let a' := scissor_tick a in
                        if scissor_done a' then None else Some a'
            | None => None
            end in
  let hl := match last_opt notes with
            | Some ev =>
                position_of (fun p => Nat.leb (Player.left_pos ev) (position p + 1))
                  (patches (left_ribbon app))
            | None => note_highlight app
            end in
  mkAppState (dual app) (left_ribbon app) (right_ribbon app) (sent app) (play_state app)
    st (tray_tick (tray app)) sc (snip_start app) hl.

(** The ribbon pre-fill of [AppState::new]: [for i in 0..capacity], one
    [pre.zip_next()] and, when it yields [(l, r)], [left_ribbon.push(l, i)]
    and [right_ribbon.push(r, i)].  [i] counts up from [0], [k] iterations
    remain. *)
Section New.
Context {St : Type} `{ZipStream St} (digit_color : Z -> Z -> Z).

Fixpoint prefill (i k : nat) (pre : St) (l r : RibbonState)
  : option (RibbonState * RibbonState) :=
  match k with
  | O => Some (l, r)
  | S k' =>
      match DS.zip_next pre with
      | (Some (ld, rd), pre') =>
          match push digit_color l ld i with
          | Some l' =>
              match push digit_color r rd i with
              | Some r' => prefill (S i) k' pre' l' r'
              | None => None
              end
          | None => None
          end
      | (None, pre') => prefill (S i) k' pre' l r
      end
  end.

(** The two ribbons [AppState::new] builds: [RibbonState::new(capacity,
    base, ..)] starts with no patches, then the pre-fill. *)
Definition new_ribbons (capacity : nat) (lbase rbase : Z) (pre : St)
  : option (RibbonState * RibbonState) :=
  prefill 0 capacity pre (mkRibbonState [] capacity lbase) (mkRibbonState [] capacity rbase).

(** The pairs the first [k] calls of [zip_next] yield. *)
Fixpoint pairs_of (k : nat) (s : St) : list (Z * Z) :=
  match k with
  | O => []
  | S k' =>
      match DS.zip_next s with
      | (Some p, s') => p :: pairs_of k' s'
      | (None, s') => pairs_of k' s'
      end
  end.

End New.

(** The highlight as the spec words it: the first visible left patch whose
    absolute position is at least the note's left-position snapshot. *)
Definition spec_highlight (ps : list Patch) (ev : Player.NoteEvent) : option nat :=
  position_of (fun p => Nat.leb (Player.left_pos ev) (position p)) ps.

End App.

(* ------------------------------------------------------------------ *)
(** ** leap_spigot/src/gesture.rs : the keyboard simulation source *)

(** [SimGestureSource::run] over the inputs its channel delivers, with a
    receiver that stays open (a failed [tx.send] would end the loop).
    The [f32] velocity literals are rounded with [f32_round]. *)
Module Gesture.

(** [pub enum SimKey]. *)
Inductive SimKey :=
| PullLeft | PullRight | PullLeftFast | PullRightFast
| Twist | Clap | Unclap | Scissors | Quit.

(** [pub enum SimInput]. *)
Inductive SimInput :=
| KeyDown (k : SimKey)
| KeyUp (k : SimKey)
| SnippetName (name : string).

(** The [for input in self.rx] loop: the events sent, in order. *)
Fixpoint sim_run (ins : list SimInput) : list App.GestureEvent :=
  match ins with
  | [] => []
  | input :: rest =>
      match input with
      | KeyDown PullLeft => App.PullLeft 1 (f32_round (3 # 10)) :: sim_run rest
      | KeyDown PullLeftFast => App.PullLeft 5 (f32_round (9 # 10)) :: sim_run rest
      | KeyDown PullRight => App.PullRight 1 (f32_round (3 # 10)) :: sim_run rest
      | KeyDown PullRightFast => App.PullRight 5 (f32_round (9 # 10)) :: sim_run rest
      | KeyDown Twist => App.Twist :: sim_run rest
      | KeyDown Clap => App.Clap :: sim_run rest
      | KeyDown Unclap => App.Unclap :: sim_run rest
      | SnippetName name => App.Scissors name :: sim_run rest
      | KeyDown Quit => [App.Quit]
      | _ => sim_run rest
      end
  end.

End Gesture.

(* ------------------------------------------------------------------ *)
(** ** Concrete inputs *)

(** A track as [MidiComposer::new(..).compose(2)] builds it with the
    defaults (120 BPM, piano, channel 0), named "spigot_midi". *)
Definition example_track : MidiTrack :=
  mkMidiTrack [mkNote 64 360 100; mkNote 60 480 100] 480 120 0 0
              (ascii_bytes "spigot_midi").

(** Player parameters for concrete runs: C major from middle C, linear
    durations of 120 ticks, velocity 100, channel 0. *)
Definition demo_params : Player.PlayerParams :=
  Player.mkPlayerParams (fun r => 60 + r) (fun l => 120 * (l + 1)) 100 0.

(** A list stream with nothing left after two pairs. *)
Definition drained_stream : nat * list (Z * Z) := (2%nat, []).

(** A digit source for concrete runs: digit [n] of a configuration is
    [n mod base]. *)
#[export] Instance counting_source : Dual.DigitSource :=
  {| Dual.digit_at := fun cfg n => Some (Z.of_nat n mod Dual.base cfg) |}.

Definition demo_dual : Dual.DualStream :=
  Dual.mkDualStream (Dual.mkCursor (Dual.mkSpigotConfig Dual.Pi 16) 10)
                    (Dual.mkCursor (Dual.mkSpigotConfig Dual.E 2) 0) [].

Definition demo_color (d b : Z) : Z := d.

(** An application whose left ribbon shows the digits at positions 4 and 5. *)
Definition demo_app : App.AppState :=
  App.mkAppState demo_dual
    (Ribbon.mkRibbonState [Ribbon.mkPatch 4 4 4; Ribbon.mkPatch 5 5 5] 5 16)
    (Ribbon.mkRibbonState [Ribbon.mkPatch 0 0 1; Ribbon.mkPatch 1 1 2] 5 2)
    [] App.Stopped Ribbon.Unstitched (Ribbon.mkSnippetTray []) None 0 None.

(* ================================================================== *)
(** * Proofs *)

(** ** Arithmetic facts about the bit operations of [write_vlq] *)

Lemma shiftr7_div (v : Z) : Z.shiftr v 7 = v / 128.
Proof. rewrite Z.shiftr_div_pow2 by lia. reflexivity. Qed.

Lemma land127_mod (v : Z) : Z.land v 127 = v mod 128.
Proof. change 127 with (Z.ones 7). rewrite Z.land_ones by lia. reflexivity. Qed.

Lemma lor128_add (y : Z) : 0 <= y < 128 -> Z.lor y 128 = y + 128.
Proof.
  intros Hy.
  assert (Hall : forallb (fun k => Z.lor k 128 =? k + 128)
                   (map Z.of_nat (seq 0 128)) = true) by reflexivity.
  rewrite forallb_forall in Hall.
  specialize (Hall y). apply Z.eqb_eq, Hall.
  apply in_map_iff. exists (Z.to_nat y). split; [lia|].
  apply in_seq. lia.
Qed.

Lemma div_mod_128 (x a : Z) : 0 <= a < 128 ->
  (x * 128 + a) / 128 = x /\ (x * 128 + a) mod 128 = a.
Proof.
  intros Ha. split.
  - rewrite Z.div_add_l by lia. rewrite Z.div_small by lia. lia.
  - rewrite Z.add_comm, Z.mod_add by lia. apply Z.mod_small. lia.
Qed.

Lemma mod_128_high (x : Z) : 0 <= x < 128 -> (x + 128) mod 128 = x.
Proof.
  intros Hx. replace (x + 128) with (x + 1 * 128) by lia.
  rewrite Z.mod_add by lia. apply Z.mod_small. lia.
Qed.

(** One iteration of the loop of [write_vlq], in arithmetic form. *)
Lemma vlq_loop_S (value : Z) (i : nat) (bytes : list Z) : 0 <= value ->
  vlq_loop value (S i) bytes =
  if value >? 0
  then vlq_loop (value / 128) i (set_nth i (value mod 128 + 128) bytes)
  else Some (S i, bytes).
Proof.
  intros Hv. simpl. rewrite shiftr7_div, land127_mod, lor128_add; [reflexivity|].
  pose proof (Z.mod_pos_bound value 128). lia.
Qed.

Lemma vlq_loop_zero (i : nat) (bytes : list Z) : vlq_loop 0 i bytes = Some (i, bytes).
Proof. destruct i; reflexivity. Qed.

Lemma gtb_true (x : Z) : 0 < x -> (x >? 0) = true.
Proof. intros; apply Z.gtb_lt; lia. Qed.

Lemma gtb_false (x : Z) : x <= 0 -> (x >? 0) = false.
Proof. intros; rewrite Z.gtb_ltb; apply Z.ltb_ge; lia. Qed.

Lemma eqb_false (x : Z) : 0 < x -> (x =? 0) = false.
Proof. intros; apply Z.eqb_neq; lia. Qed.

(** Every value below [2^28] splits into four 7-bit groups. *)
Lemma vlq_four_groups (v : Z) : 0 <= v < 2 ^ 28 ->
  exists d c b a, 0 <= d < 128 /\ 0 <= c < 128 /\ 0 <= b < 128 /\ 0 <= a < 128 /\
    v = ((d * 128 + c) * 128 + b) * 128 + a.
Proof.
  intros Hv.
  exists (v / 128 / 128 / 128), (v / 128 / 128 mod 128), (v / 128 mod 128), (v mod 128).
  pose proof (Z.div_mod v 128 ltac:(lia)) as E1.
  pose proof (Z.div_mod (v / 128) 128 ltac:(lia)) as E2.
  pose proof (Z.div_mod (v / 128 / 128) 128 ltac:(lia)) as E3.
  pose proof (Z.mod_pos_bound v 128 ltac:(lia)).
  pose proof (Z.mod_pos_bound (v / 128) 128 ltac:(lia)).
  pose proof (Z.mod_pos_bound (v / 128 / 128) 128 ltac:(lia)).
  assert (0 <= v / 128 / 128 / 128 < 128).
  { split; [repeat apply Z.div_pos; lia|].
    repeat rewrite Z.div_div by lia. apply Z.div_lt_upper_bound; lia. }
  repeat split; try lia.
Qed.

Lemma div128_eq (x a : Z) : 0 <= a < 128 -> (x * 128 + a) / 128 = x.
Proof. intros Ha. apply (div_mod_128 x a Ha). Qed.

Lemma mod128_eq (x a : Z) : 0 <= a < 128 -> (x * 128 + a) mod 128 = a.
Proof. intros Ha. apply (div_mod_128 x a Ha). Qed.

Lemma vlq_loop_O (value : Z) (bytes : list Z) :
  vlq_loop value 0 bytes = if value >? 0 then None else Some (0%nat, bytes).
Proof. reflexivity. Qed.

(** Symbolic evaluation of [write_vlq] and [spec_vlq] on four 7-bit groups. *)
Ltac vlq_eval :=
  repeat match goal with
  | |- context [(?x * 128 + ?y) / 128] => rewrite (div128_eq x y) by lia
  | |- context [(?x * 128 + ?y) mod 128] => rewrite (mod128_eq x y) by lia
  | |- context [?x / 128] => rewrite (Z.div_small x 128) by lia
  | |- context [?x mod 128] => rewrite (Z.mod_small x 128) by lia
  | |- context [vlq_loop 0 _ _] => rewrite vlq_loop_zero
  | |- context [vlq_loop ?v 0 ?b] => rewrite (vlq_loop_O v b)
  | |- context [vlq_loop ?v (S ?i) ?b] => rewrite (vlq_loop_S v i b) by nia
  | |- context [?x >? 0] => destruct (Z.gtb_spec x 0)
  | |- context [?x =? 0] => destruct (Z.eqb_spec x 0)
  end.

Lemma write_vlq_spec (buf : list Z) (v : Z) : 0 <= v < 2 ^ 28 ->
  write_vlq buf v = Some (buf ++ spec_vlq v).
Proof.
  intros Hv. destruct (vlq_four_groups v Hv) as (d & c & b & a & Hd & Hc & Hb & Ha & ->).
  unfold write_vlq, spec_vlq. rewrite land127_mod, shiftr7_div.
  cbn [vlq_groups]. vlq_eval; try (exfalso; lia); simpl;
    repeat f_equal; lia.
Qed.

Lemma spec_vlq_shape (v : Z) : 0 <= v < 2 ^ 28 ->
  vlq_decode (spec_vlq v) = v /\
  exists init lastb, spec_vlq v = init ++ [lastb] /\
    Forall (fun b => 128 <= b < 256) init /\ 0 <= lastb < 128.
Proof.
  intros Hv. destruct (vlq_four_groups v Hv) as (d & c & b & a & Hd & Hc & Hb & Ha & ->).
  unfold spec_vlq. cbn [vlq_groups]. vlq_eval; try (exfalso; lia); simpl;
    (split;
     [ unfold vlq_decode; simpl; rewrite ?mod_128_high by lia;
       rewrite ?(Z.mod_small a 128), ?(Z.mod_small b 128), ?(Z.mod_small c 128),
               ?(Z.mod_small d 128) by lia; lia
     | match goal with
       | |- exists init lastb, ?L = _ /\ _ => exists (removelast L), (last L 0)
       end;
       simpl; split; [reflexivity | split; [repeat constructor; lia | lia]] ]).
Qed.

Lemma write_vlq_overflow (buf : list Z) (v : Z) : 2 ^ 28 <= v < 2 ^ 32 ->
  write_vlq buf v = None.
Proof.
  intros Hv. unfold write_vlq. rewrite land127_mod, shiftr7_div.
  assert (H1 : 2 ^ 21 <= v / 128) by (apply Z.div_le_lower_bound; lia).
  assert (H2 : 2 ^ 14 <= v / 128 / 128) by (apply Z.div_le_lower_bound; lia).
  assert (H3 : 2 ^ 7 <= v / 128 / 128 / 128) by (apply Z.div_le_lower_bound; lia).
  assert (H4 : 1 <= v / 128 / 128 / 128 / 128) by (apply Z.div_le_lower_bound; lia).
  rewrite vlq_loop_S, gtb_true by lia.
  rewrite vlq_loop_S, gtb_true by lia.
  rewrite vlq_loop_S, gtb_true by lia.
  rewrite vlq_loop_O, gtb_true by lia.
  reflexivity.
Qed.

Example write_vlq_0x40 : write_vlq [] 64 = Some [64].
Proof. reflexivity. Qed.
Example write_vlq_128 : write_vlq [] 128 = Some [129; 0].
Proof. reflexivity. Qed.
Example write_vlq_0x3FFF : write_vlq [] 16383 = Some [255; 127].
Proof. reflexivity. Qed.
Example write_vlq_max4 : write_vlq [] (2^28 - 1) = Some (spec_vlq (2^28 - 1)).
Proof. reflexivity. Qed.
Example write_vlq_2_28 : write_vlq [] (2^28) = None.
Proof. reflexivity. Qed.

Lemma ticks_to_ms_no_wrap (ticks tpq bpm : Z) : is_u32 ticks ->
  ticks_to_ms ticks tpq bpm = Z.max (ticks * (60000 / Z.max bpm 1) / Z.max tpq 1) 50.
Proof.
  unfold is_u32, u32_max, ticks_to_ms, u64_max. intros Ht.
  assert (0 <= 60000 / Z.max bpm 1 <= 60000).
  { split; [apply Z.div_pos; lia|].
    apply Z.div_le_upper_bound; nia. }
  rewrite (Z.mod_small (ticks * (60000 / Z.max bpm 1))) by nia.
  reflexivity.
Qed.

(** ** Facts about the serialiser *)

Lemma lor_channel (base ch : Z) : In base [128; 144; 192] -> 0 <= ch <= 15 ->
  Z.lor base ch = base + ch.
Proof.
  intros Hb Hc.
  assert (Hall : forallb (fun b => forallb (fun k => Z.lor b k =? b + k)
                                     (map Z.of_nat (seq 0 16))) [128; 144; 192] = true)
    by reflexivity.
  rewrite forallb_forall in Hall. specialize (Hall base Hb).
  rewrite forallb_forall in Hall. apply Z.eqb_eq, Hall.
  apply in_map_iff. exists (Z.to_nat ch). split; [lia|]. apply in_seq. lia.
Qed.

Lemma land15_small (ch : Z) : 0 <= ch <= 15 -> Z.land ch 15 = ch.
Proof.
  intros Hc. change 15 with (Z.ones 4). rewrite Z.land_ones by lia.
  apply Z.mod_small. lia.
Qed.

Lemma byte_of_shift (v : Z) (k : nat) :
  Z.land (Z.shiftr v (8 * Z.of_nat k)) 255 = (v / 256 ^ Z.of_nat k) mod 256.
Proof.
  rewrite Z.shiftr_div_pow2 by lia.
  change 255 with (Z.ones 8). rewrite Z.land_ones by lia.
  rewrite Z.pow_mul_r by lia. reflexivity.
Qed.

Lemma be_to_be_bytes (w : nat) (v : Z) : 0 <= v < 256 ^ Z.of_nat w ->
  be w v = Some (to_be_bytes w v).
Proof.
  intros Hv. unfold be.
  rewrite (proj2 (Z.leb_le 0 v)), (proj2 (Z.ltb_lt v _)) by lia. simpl.
  f_equal. unfold to_be_bytes. apply map_ext. intros k. symmetry. apply byte_of_shift.
Qed.

Lemma note_events_spec (ch : Z) (ns : list Note) (t : list Z) :
  0 <= ch <= 15 -> Forall (fun n => 0 <= duration n < 2 ^ 28) ns ->
  note_events ch ns t = Some (t ++ flat_map (spec_note_bytes ch) ns).
Proof.
  intros Hc Hns. revert t. induction Hns as [|n ns Hn Hns IH]; intros t.
  - simpl. rewrite app_nil_r. reflexivity.
  - cbn [note_events].
    rewrite (lor_channel 144), (lor_channel 128) by (simpl; tauto || lia).
    rewrite write_vlq_spec by exact Hn. rewrite IH.
    unfold spec_note_bytes. f_equal. simpl. rewrite <- !app_assoc. reflexivity.
Qed.

Lemma spec_vlq_length (v : Z) : 0 <= v < 2 ^ 28 -> (List.length (spec_vlq v) <= 4)%nat.
Proof.
  intros Hv. destruct (vlq_four_groups v Hv) as (d & c & b & a & Hd & Hc & Hb & Ha & ->).
  unfold spec_vlq. cbn [vlq_groups]. vlq_eval; try (exfalso; lia); simpl; lia.
Qed.

Lemma notes_length (ch : Z) (ns : list Note) :
  Forall (fun n => 0 <= duration n < 2 ^ 28) ns ->
  (List.length (flat_map (spec_note_bytes ch) ns) <= 11 * List.length ns)%nat.
Proof.
  induction 1 as [|n ns Hn _ IH]; cbn [flat_map List.length]; [lia|].
  rewrite length_app. unfold spec_note_bytes at 1. rewrite !length_app.
  pose proof (spec_vlq_length _ Hn). cbn [List.length]. lia.
Qed.

Lemma build_track_chunk_spec (tr : MidiTrack) :
  4 <= tempo_bpm tr -> 0 <= channel tr <= 15 ->
  Z.of_nat (List.length (description tr)) < 2 ^ 28 ->
  Forall (fun n => 0 <= duration n < 2 ^ 28) (notes tr) ->
  build_track_chunk tr = spec_track_payload tr /\ spec_track_payload tr <> None.
Proof.
  intros Hb Hc Hd Hns.
  assert (Hm : 0 <= 60000000 / tempo_bpm tr < 256 ^ Z.of_nat 3).
  { split; [apply Z.div_pos; lia|].
    apply Z.le_lt_trans with (60000000 / 4); [apply Z.div_le_compat_l; lia | reflexivity]. }
  unfold build_track_chunk, spec_track_payload.
  rewrite (proj2 (Z.eqb_neq (tempo_bpm tr) 0)) by lia.
  rewrite (be_to_be_bytes 3 _ Hm).
  rewrite land15_small, (lor_channel 192) by (simpl; tauto || lia).
  rewrite (Z.mod_small (Z.of_nat _) u32_max) by (unfold u32_max; lia).
  rewrite write_vlq_spec by lia.
  rewrite note_events_spec by assumption.
  split; [|discriminate].
  f_equal. unfold to_be_bytes. simpl. rewrite <- !app_assoc. reflexivity.
Qed.

Lemma payload_length (tr : MidiTrack) (payload : list Z) :
  Z.of_nat (List.length (description tr)) < 2 ^ 28 ->
  Z.of_nat (List.length (notes tr)) < 2 ^ 24 ->
  Forall (fun n => 0 <= duration n < 2 ^ 28) (notes tr) ->
  spec_track_payload tr = Some payload ->
  Z.of_nat (List.length payload) < 2 ^ 32.
Proof.
  intros Hd Hn Hns E. unfold spec_track_payload in E.
  destruct (be 3 _) as [tempo|] eqn:Et; [|discriminate].
  injection E as <-.
  assert (Ht : List.length tempo = 3%nat).
  { unfold be in Et. destruct (_ && _); [|discriminate].
    injection Et as <-. reflexivity. }
  pose proof (spec_vlq_length (Z.of_nat (List.length (description tr))) ltac:(lia)).
  pose proof (notes_length (channel tr) (notes tr) Hns).
  repeat (rewrite length_app || rewrite Ht || (progress cbn [List.length])). lia.
Qed.

Lemma note_events_overflow (ch : Z) (ns : list Note) (t : list Z) :
  Forall (fun n => is_u32 (duration n)) ns ->
  Exists (fun n => 2 ^ 28 <= duration n) ns ->
  note_events ch ns t = None.
Proof.
  intros Hu Hx. revert t. induction Hx as [n ns Hn | n ns _ IH]; intros t;
    inversion Hu as [|? ? Hun Hus]; subst; cbn [note_events].
  - unfold is_u32, u32_max in Hun. rewrite write_vlq_overflow by lia. reflexivity.
  - destruct (write_vlq _ _); [apply IH; exact Hus | reflexivity].
Qed.

Lemma build_track_chunk_overflow (tr : MidiTrack) :
  Forall (fun n => is_u32 (duration n)) (notes tr) ->
  Exists (fun n => 2 ^ 28 <= duration n) (notes tr) ->
  build_track_chunk tr = None.
Proof.
  intros Hu Hx. unfold build_track_chunk.
  destruct (tempo_bpm tr =? 0); [reflexivity|].
  destruct (write_vlq _ _); [|reflexivity].
  rewrite note_events_overflow by assumption. reflexivity.
Qed.

(** ** The playback loop *)

Module PlayerFacts.
Import Player.

(** Every [NoteOn] of a trace is directly followed by the note's sleep, its
    [NoteOff] and the inter-note gap. *)
Definition notes_complete (l : list Effect) : Prop :=
  forall pre post ch p v, l = pre ++ NoteOn ch p v :: post ->
  exists ms gap rest,
    post = SleepMs ms :: NoteOff ch p :: SleepMs gap :: rest /\ gap = Z.max (ms / 20) 5.

Lemma notes_complete_no_noteon (l : list Effect) :
  (forall ch p v, ~ In (NoteOn ch p v) l) -> notes_complete l.
Proof.
  intros H pre post ch p v E. exfalso. apply (H ch p v).
  rewrite E. apply in_app_iff. right. left. reflexivity.
Qed.

Lemma notes_complete_app (a b : list Effect) :
  notes_complete a -> notes_complete b -> notes_complete (a ++ b).
Proof.
  intros Ha Hb pre post ch p v E.
  apply app_eq_app in E as [l [[E1 E2] | [E1 E2]]].
  - destruct l as [|y l'].
    + simpl in E2. apply (Hb [] post ch p v). simpl. symmetry. exact E2.
    + injection E2 as <- E2. subst a post.
      destruct (Ha pre l' ch p v eq_refl) as (ms & gap & rest & -> & Hg).
      exists ms, gap, (rest ++ b). split; [reflexivity | exact Hg].
  - apply (Hb l post ch p v E2).
Qed.

Section Facts.
Context {S : Type} `{ZipStream S} (cfg : PlayerParams).

Lemma drain_no_noteon (st : PlayerState S) (cmds : list PlayerCommand) :
  forall ch p v, ~ In (NoteOn ch p v) (fst (drain cfg st cmds)).
Proof.
  revert st. induction cmds as [|c cs IH]; intros st ch p v Hin; simpl in Hin.
  - exact Hin.
  - destruct c;
      try (destruct Hin as [Hin | Hin]; [discriminate Hin | exact Hin]);
      match type of Hin with
      | context [drain cfg ?st' cs] =>
          specialize (IH st' ch p v); destruct (drain cfg st' cs) as [acts r];
          simpl in Hin; firstorder discriminate
      end.
Qed.

Lemma play_step_complete (st : PlayerState S) : notes_complete (fst (play_step cfg st)).
Proof.
  unfold play_step. destruct (negb (playing st)).
  - apply notes_complete_no_noteon. intros ch p v [Hin | []]. discriminate.
  - destruct (DS.zip_next (stream st)) as [[[l r]|] s'].
    + intros pre post ch p v E. simpl in E.
      destruct pre as [|e1 [|e2 [|e3 [|e4 [|e5 pre]]]]]; simpl in E;
        injection E; intros; subst; try discriminate.
      * eexists _, _, _. split; [reflexivity | reflexivity].
      * destruct pre; discriminate.
    + apply notes_complete_no_noteon. intros ch p v [].
Qed.

Lemma run_complete (batches : list (list PlayerCommand)) (st : PlayerState S) :
  notes_complete (run cfg batches st).
Proof.
  revert st. induction batches as [|b bs IH]; intros st; simpl.
  - apply notes_complete_no_noteon. intros ch p v [].
  - pose proof (drain_no_noteon st b) as Hd.
    destruct (drain cfg st b) as [acts [st1|]]; simpl in Hd.
    + pose proof (play_step_complete st1) as Hp.
      destruct (play_step cfg st1) as [acts2 st2]; simpl in Hp.
      apply notes_complete_app; [apply notes_complete_no_noteon; exact Hd|].
      apply notes_complete_app; [exact Hp | apply IH].
    + apply notes_complete_no_noteon. exact Hd.
Qed.

Lemma drain_head (st : PlayerState S) (c : PlayerCommand) (cs : list PlayerCommand) :
  exists rest r, drain cfg st (c :: cs) = (Received c :: rest, r).
Proof.
  destruct c; simpl;
    try (destruct (drain cfg _ cs) as [acts r]; eexists _, _; reflexivity).
  eexists _, _; reflexivity.
Qed.

End Facts.
End PlayerFacts.

(** ** The dual stream, the ribbons and the orchestrator *)

Module AppFacts.

Lemma get_snippet_store (nm : string) (e : Dual.Snippet) (l : list (string * Dual.Snippet)) :
  Dual.get_snippet nm (Dual.store nm e l) = Some e.
Proof.
  induction l as [|[k v] t IH]; simpl.
  - rewrite String.eqb_refl. reflexivity.
  - destruct (String.eqb k nm) eqn:Ek; simpl; rewrite Ek; [reflexivity | exact IH].
Qed.

Lemma snip_ok `{Dual.DigitSource} (ds : Dual.DualStream) (nm : string) (a b : nat) :
  (a <= b)%nat ->
  Dual.snip ds nm a b =
    inl (Dual.mkDualStream (Dual.left ds) (Dual.right ds)
          (Dual.store nm (Dual.mkSnippet
                            (combine (Dual.capture (Dual.config (Dual.left ds)) a b)
                                     (Dual.capture (Dual.config (Dual.right ds)) a b)) a b)
             (Dual.snippets ds))).
Proof.
  intros Hab. unfold Dual.snip.
  destruct (Nat.ltb_spec b a); [lia | reflexivity].
Qed.

Lemma snip_all_frame `{Dual.DigitSource} (reqs : list (string * nat * nat)) :
  Forall (fun '(_, a, b) => (a <= b)%nat) reqs ->
  forall ds, exists ds', Dual.snip_all ds reqs = inl ds' /\
    Dual.left ds' = Dual.left ds /\ Dual.right ds' = Dual.right ds.
Proof.
  induction 1 as [|[[nm a] b] rest Hab _ IH]; intros ds; simpl.
  - exists ds. auto.
  - rewrite (snip_ok ds nm a b Hab).
    match goal with
    | |- context [Dual.snip_all ?d rest] =>
        destruct (IH d) as (ds' & E & Hl & Hr); exists ds'; rewrite E; auto
    end.
Qed.

Lemma position_of_some {A} (f : A -> bool) (l : list A) (i : nat) :
  App.position_of f l = Some i ->
  exists x, nth_error l i = Some x /\ f x = true /\
    forall j y, (j < i)%nat -> nth_error l j = Some y -> f y = false.
Proof.
  revert i. induction l as [|x t IH]; intros i E; simpl in E; [discriminate|].
  destruct (f x) eqn:Fx.
  - injection E as <-. exists x. repeat split; [exact Fx|]. intros j y Hj. lia.
  - destruct (App.position_of f t) as [k|] eqn:Ek; simpl in E; [|discriminate].
    injection E as <-. destruct (IH k eq_refl) as (y & Hy & Fy & Hbefore).
    exists y. repeat split; [exact Hy | exact Fy|].
    intros [|j] z Hj Hz; simpl in Hz.
    + injection Hz as <-. exact Fx.
    + apply (Hbefore j z); [lia | exact Hz].
Qed.

Lemma position_of_none {A} (f : A -> bool) (l : list A) :
  App.position_of f l = None -> forall x, In x l -> f x = false.
Proof.
  induction l as [|x t IH]; intros E y Hy; [destruct Hy|].
  simpl in E. destruct (f x) eqn:Fx; [discriminate|].
  destruct Hy as [<- | Hy]; [exact Fx|].
  destruct (App.position_of f t); [discriminate|]. exact (IH eq_refl y Hy).
Qed.

Lemma deposit_fifo (t : Ribbon.SnippetTray) (nm : string) (ps : list (Ribbon.Patch * Ribbon.Patch)) :
  (List.length (Ribbon.entries t) <= 8)%nat ->
  let es := Ribbon.entries t ++ [Ribbon.mkTrayEntry nm ps 0] in
  Ribbon.entries (Ribbon.deposit t nm ps) = skipn (List.length es - 8) es /\
  (List.length (Ribbon.entries (Ribbon.deposit t nm ps)) <= 8)%nat.
Proof.
  intros Hl es. unfold Ribbon.deposit. fold es.
  assert (Hes : List.length es = S (List.length (Ribbon.entries t)))
    by (unfold es; rewrite length_app; simpl; lia).
  destruct (Nat.ltb_spec 8 (List.length es)); simpl.
  - replace (List.length es - 8)%nat with 1%nat by lia.
    destruct es as [|e es']; [simpl in Hes; discriminate|].
    simpl. simpl in Hes. split; [reflexivity | lia].
  - replace (List.length es - 8)%nat with 0%nat by lia. split; [reflexivity | lia].
Qed.

Lemma last_opt_app {A} (pre : list A) (x : A) : App.last_opt (pre ++ [x]) = Some x.
Proof.
  induction pre as [|y t IH]; [reflexivity|].
  simpl. destruct (t ++ [x]) as [|z u] eqn:E.
  - destruct t; discriminate.
  - exact IH.
Qed.

Lemma do_snip_tray_eq `{Dual.DigitSource} (app : App.AppState) (nm : string) :
  Ribbon.entries (App.tray (App.do_snip app nm)) =
  Ribbon.entries (Ribbon.deposit (App.tray app) nm
    (combine (Ribbon.patches (App.left_ribbon app)) (Ribbon.patches (App.right_ribbon app)))).
Proof. reflexivity. Qed.

Lemma do_snips_bounded `{Dual.DigitSource} (names : list string) :
  forall app, (List.length (Ribbon.entries (App.tray app)) <= 8)%nat ->
  (List.length (Ribbon.entries (App.tray (fold_left App.do_snip names app))) <= 8)%nat.
Proof.
  induction names as [|nm names IH]; intros app Ha; simpl; [exact Ha|].
  apply IH. rewrite do_snip_tray_eq. apply deposit_fifo. exact Ha.
Qed.

End AppFacts.

(* ================================================================== *)
(** * Claims *)

(** ** C3 (corrected): [ticks_to_ms] raises a zero [bpm] or [tpq] to 1.
    For all u32 inputs, [ticks_to_ms ticks tpq bpm] is the spec's formula
    evaluated at [max bpm 1] and [max tpq 1] (the u64 product never wraps);
    hence it is exactly the formula whenever [bpm >= 1] and [tpq >= 1], and
    [ticks_to_ms 480 480 120 = 500], [ticks_to_ms 1 480 120 = 50]. *)
Theorem ticks_to_ms_guarded (ticks tpq bpm : Z) :
  is_u32 ticks -> is_u32 tpq -> is_u32 bpm ->
  Some (ticks_to_ms ticks tpq bpm) = spec_ticks_to_ms ticks (Z.max tpq 1) (Z.max bpm 1) /\
  (1 <= bpm -> 1 <= tpq -> Some (ticks_to_ms ticks tpq bpm) = spec_ticks_to_ms ticks tpq bpm) /\
  ticks_to_ms 480 480 120 = 500 /\ ticks_to_ms 1 480 120 = 50.
Proof.
  intros Ht Hq Hb.
  rewrite ticks_to_ms_no_wrap by exact Ht.
  unfold spec_ticks_to_ms.
  rewrite (proj2 (Z.eqb_neq (Z.max bpm 1) 0)) by lia.
  rewrite (proj2 (Z.eqb_neq (Z.max tpq 1) 0)) by lia.
  repeat split; try reflexivity.
  intros H1 H2.
  rewrite (proj2 (Z.eqb_neq bpm 0)), (proj2 (Z.eqb_neq tpq 0)) by lia.
  rewrite (Z.max_l bpm 1), (Z.max_l tpq 1) by lia. reflexivity.
Qed.

Lemma ticks_to_ms_guarded_witness :
  is_u32 240 /\ is_u32 480 /\ is_u32 120 /\
  Some (ticks_to_ms 240 480 120) = spec_ticks_to_ms 240 480 120.
Proof.
  assert (Hs : is_u32 240 /\ is_u32 480 /\ is_u32 120)
    by (unfold is_u32, u32_max; lia).
  destruct Hs as (H1 & H2 & H3).
  split; [exact H1 | split; [exact H2 | split; [exact H3 |]]].
  destruct (ticks_to_ms_guarded 240 480 120 H1 H2 H3) as (_ & H & _).
  apply H; lia.
Defined.

(** C3 counterexample: at [bpm = 0] the spec's formula divides by zero
    and has no value, while [ticks_to_ms 480 480 0 = 60000]. *)
Lemma ticks_to_ms_bpm_zero :
  ~ (forall ticks tpq bpm, is_u32 ticks -> is_u32 tpq -> is_u32 bpm ->
       Some (ticks_to_ms ticks tpq bpm) = spec_ticks_to_ms ticks tpq bpm).
Proof.
  intros H.
  specialize (H 480 480 0 ltac:(unfold is_u32, u32_max; lia)
                          ltac:(unfold is_u32, u32_max; lia)
                          ltac:(unfold is_u32, u32_max; lia)).
  vm_compute in H. discriminate H.
Qed.

(** ** C6 (corrected): [write_vlq] on a u32 value [v].  Below [2^28] it
    appends the spec's variable-length quantity (7-bit groups, most
    significant first, bit 7 set on all bytes but the last), which decodes
    back to [v]; from [2^28] on, the encoding needs a fifth byte, the index
    into the 4-byte buffer underflows and [write_vlq] panics. *)
Theorem write_vlq_u32 (buf : list Z) (v : Z) : is_u32 v ->
  (v < 2 ^ 28 ->
     write_vlq buf v = Some (buf ++ spec_vlq v) /\
     vlq_decode (spec_vlq v) = v /\
     exists init lastb, spec_vlq v = init ++ [lastb] /\
       Forall (fun b => 128 <= b < 256) init /\ 0 <= lastb < 128) /\
  (2 ^ 28 <= v -> write_vlq buf v = None).
Proof.
  unfold is_u32, u32_max. intros Hv. split.
  - intros Hlt. split; [apply write_vlq_spec; lia | apply spec_vlq_shape; lia].
  - intros Hge. apply write_vlq_overflow. lia.
Qed.

Lemma write_vlq_u32_witness :
  is_u32 300 /\ write_vlq [7] 300 = Some ([7] ++ spec_vlq 300).
Proof.
  assert (H : is_u32 300) by (unfold is_u32, u32_max; lia).
  split; [exact H|].
  destruct (write_vlq_u32 [7] 300 H) as [Hlt _].
  apply Hlt. lia.
Defined.

(** C6 counterexample: the u32 value [2^28] is not encoded at all. *)
Lemma write_vlq_fails_at_2_28 :
  ~ (forall v, is_u32 v ->
       exists out, write_vlq [] v = Some out /\ vlq_decode out = v).
Proof.
  intros H.
  destruct (H (2 ^ 28) ltac:(unfold is_u32, u32_max; lia)) as (out & E & _).
  vm_compute in E. discriminate E.
Qed.

(** ** C5 (corrected): on a track built by [MidiComposer] with a tempo
    of at least 4 BPM (so that 60,000,000/BPM fits the 3-byte tempo field)
    and a name below [2^28] bytes, [to_bytes] writes the spec's
    single-track layout (format 0, one track) as long as every note
    duration is below [2^28], the largest variable-length quantity the
    4-byte buffer of [write_vlq] holds; the MTrk length field is the
    payload length modulo [2^32] ([track.len() as u32]), which is the
    length itself, and the whole file the spec's, whenever the payload is
    shorter than [2^32] bytes.  If any note lasts [2^28] ticks or more,
    [to_bytes] panics. *)
Theorem to_bytes_layout (tr : MidiTrack) :
  composed tr ->
  (4 <= tempo_bpm tr ->
   Z.of_nat (List.length (description tr)) < 2 ^ 28 ->
   Forall (fun n => duration n < 2 ^ 28) (notes tr) ->
   exists payload, spec_track_payload tr = Some payload /\
     to_bytes tr = Some (ascii_bytes "MThd" ++ to_be_bytes 4 6 ++ to_be_bytes 2 0 ++
                         to_be_bytes 2 1 ++ to_be_bytes 2 (ticks_per_quarter tr) ++
                         ascii_bytes "MTrk" ++
                         to_be_bytes 4 (Z.of_nat (List.length payload) mod 2 ^ 32) ++
                         payload) /\
     (Z.of_nat (List.length payload) < 2 ^ 32 ->
      to_bytes tr = spec_midi_file tr /\ spec_midi_file tr <> None)) /\
  (Exists (fun n => 2 ^ 28 <= duration n) (notes tr) -> to_bytes tr = None).
Proof.
  intros (Hb & Hq & Hc & Hi & Hns). split.
  - intros Hb4 Hd Hdur.
    assert (Hns' : Forall (fun n => 0 <= duration n < 2 ^ 28) (notes tr)).
    { rewrite Forall_forall in *. intros n Hin.
      destruct (Hns n Hin) as (_ & _ & Hu). specialize (Hdur n Hin).
      unfold is_u32 in Hu. lia. }
    destruct (build_track_chunk_spec tr Hb4 Hc Hd Hns') as [E Hne].
    destruct (spec_track_payload tr) as [payload|] eqn:Ep; [|contradiction].
    exists payload. split; [reflexivity|].
    assert (Ht : to_bytes tr =
                 Some (ascii_bytes "MThd" ++ to_be_bytes 4 6 ++ to_be_bytes 2 0 ++
                       to_be_bytes 2 1 ++ to_be_bytes 2 (ticks_per_quarter tr) ++
                       ascii_bytes "MTrk" ++
                       to_be_bytes 4 (Z.of_nat (List.length payload) mod 2 ^ 32) ++
                       payload)).
    { unfold to_bytes. rewrite E. reflexivity. }
    split; [exact Ht|]. intros Hl.
    rewrite Ht. unfold spec_midi_file. rewrite Ep.
    rewrite (be_to_be_bytes 4 6), (be_to_be_bytes 2 0), (be_to_be_bytes 2 1),
            (be_to_be_bytes 2 (ticks_per_quarter tr)),
            (be_to_be_bytes 4 (Z.of_nat (List.length payload))) by (simpl; lia).
    rewrite (Z.mod_small _ (2 ^ 32)) by lia.
    split; [reflexivity | discriminate].
  - intros Hx. unfold to_bytes. rewrite build_track_chunk_overflow; [reflexivity | | exact Hx].
    eapply Forall_impl; [|exact Hns]. intros n (_ & _ & Hu). exact Hu.
Qed.

Ltac prove_composed :=
  unfold composed, is_u32, u32_max; simpl;
  repeat split; try lia;
  repeat (apply Forall_cons; [cbn; repeat split; lia|]); apply Forall_nil.

Lemma to_bytes_layout_witness :
  composed example_track /\ to_bytes example_track = spec_midi_file example_track /\
  to_bytes (mkMidiTrack [mkNote 64 (2 ^ 28) 100] 480 120 0 0 (ascii_bytes "x")) = None.
Proof.
  assert (Hc : composed example_track)
    by prove_composed.
  split; [exact Hc|]. split.
  - assert (H4 : 4 <= tempo_bpm example_track) by (vm_compute; congruence).
    assert (Hd : Z.of_nat (List.length (description example_track)) < 2 ^ 28)
      by (vm_compute; reflexivity).
    assert (Hdur : Forall (fun n => duration n < 2 ^ 28) (notes example_track))
      by (repeat constructor; vm_compute; reflexivity).
    destruct (proj1 (to_bytes_layout example_track Hc) H4 Hd Hdur) as (p & Ep & _ & Hl).
    vm_compute in Ep. injection Ep as <-. apply Hl. vm_compute. reflexivity.
  - set (tr := mkMidiTrack [mkNote 64 (2 ^ 28) 100] 480 120 0 0 (ascii_bytes "x")).
    assert (Hl : composed tr) by prove_composed.
    apply (proj2 (to_bytes_layout tr Hl)).
    apply Exists_cons_hd. cbn. lia.
Defined.

(** C5 counterexample: a composed track with one note of [2^28] ticks
    (e.g. from [DurationMap::custom(vec![1 << 28])]) has a spec layout,
    but [to_bytes] panics in [write_vlq]. *)
Lemma to_bytes_long_note :
  ~ (forall tr, composed tr -> to_bytes tr = spec_midi_file tr).
Proof.
  intros H.
  set (tr := mkMidiTrack [mkNote 64 (2 ^ 28) 100] 480 120 0 0 (ascii_bytes "x")).
  assert (Hc : composed tr)
    by prove_composed.
  specialize (H tr Hc). vm_compute in H. discriminate H.
Qed.

(** ** C2 (confirmed): the player never cuts a note short.  In every run
    of [player_thread], whatever commands arrive and whenever, each
    note-on is immediately followed by the note's sleep, the matching
    note-off and the inter-note gap [max(ms/20, 5)]: no command is taken
    off the channel in between, so a [Stop] acts only after the note. *)
Theorem player_completes_notes {S : Type} `{ZipStream S} (cfg : Player.PlayerParams)
    (s : S) (instrument0 tempo0 : Z) (batches : list (list Player.PlayerCommand))
    (pre post : list Player.Effect) (ch p v : Z) :
  Player.player_thread cfg s instrument0 tempo0 batches = pre ++ Player.NoteOn ch p v :: post ->
  exists ms gap rest,
    post = Player.SleepMs ms :: Player.NoteOff ch p :: Player.SleepMs gap :: rest /\
    gap = Z.max (ms / 20) 5.
Proof.
  unfold Player.player_thread.
  change (?x :: ?l) with ([x] ++ l) at 1.
  apply PlayerFacts.notes_complete_app.
  - apply PlayerFacts.notes_complete_no_noteon. intros ch' p' v' [Hin | []]. discriminate.
  - apply PlayerFacts.run_complete.
Qed.

(** A [Stop] sent while the first note sounds is received after its
    note-off and gap. *)
Lemma player_completes_notes_witness :
  Player.player_thread demo_params (0%nat, [(3, 2)]) 0 120 [[Player.Play]; [Player.Stop]] =
    [Player.ProgramChange 0 0; Player.Received Player.Play; Player.ProgramChange 0 0;
     Player.Notify (Player.mkNoteEvent 62 480 100 1 1)] ++
    Player.NoteOn 0 62 100 ::
    [Player.SleepMs 500; Player.NoteOff 0 62; Player.SleepMs 25;
     Player.Received Player.Stop; Player.SleepMs 10] /\
  exists ms gap rest,
    [Player.SleepMs 500; Player.NoteOff 0 62; Player.SleepMs 25;
     Player.Received Player.Stop; Player.SleepMs 10] =
      Player.SleepMs ms :: Player.NoteOff 0 62 :: Player.SleepMs gap :: rest /\
    gap = Z.max (ms / 20) 5.
Proof.
  assert (E : Player.player_thread demo_params (0%nat, [(3, 2)]) 0 120
                [[Player.Play]; [Player.Stop]] =
    [Player.ProgramChange 0 0; Player.Received Player.Play; Player.ProgramChange 0 0;
     Player.Notify (Player.mkNoteEvent 62 480 100 1 1)] ++
    Player.NoteOn 0 62 100 ::
    [Player.SleepMs 500; Player.NoteOff 0 62; Player.SleepMs 25;
     Player.Received Player.Stop; Player.SleepMs 10]) by reflexivity.
  split; [exact E|].
  exact (player_completes_notes demo_params _ _ _ _ _ _ _ _ _ E).
Defined.

(** ** C8 (confirmed): when the private stream is exhausted while playing,
    the iteration emits nothing, clears the playing flag and the loop goes
    on: the run continues with the next batch of commands, whose first
    command is received as usual. *)
Theorem player_exhaustion_graceful {S : Type} `{ZipStream S} (cfg : Player.PlayerParams)
    (st st1 : Player.PlayerState S) (b : list Player.PlayerCommand)
    (acts : list Player.Effect) (s' : S) :
  Player.drain cfg st b = (acts, Some st1) ->
  Player.playing st1 = true ->
  DS.zip_next (Player.stream st1) = (None, s') ->
  let st2 := Player.mkPlayerState s' (Player.instrument st1) (Player.tempo_bpm st1) false in
  Player.play_step cfg st1 = ([], st2) /\
  (forall bs, Player.run cfg (b :: bs) st = acts ++ Player.run cfg bs st2) /\
  (forall c cs bs, exists rest, Player.run cfg ((c :: cs) :: bs) st2 = Player.Received c :: rest).
Proof.
  intros Hd Hp Hz st2.
  assert (Hs : Player.play_step cfg st1 = ([], st2)).
  { unfold Player.play_step. rewrite Hp. simpl. rewrite Hz. reflexivity. }
  split; [exact Hs|]. split.
  - intros bs. cbn [Player.run]. rewrite Hd, Hs. reflexivity.
  - intros c cs bs. cbn [Player.run].
    destruct (PlayerFacts.drain_head cfg st2 c cs) as (rest & r & E).
    rewrite E. destruct r as [st3|].
    + destruct (Player.play_step cfg st3). eexists. reflexivity.
    + eexists. reflexivity.
Qed.

Lemma player_exhaustion_graceful_witness :
  Player.drain demo_params (Player.mkPlayerState drained_stream 0 120 false) [Player.Play] =
    ([Player.Received Player.Play; Player.ProgramChange 0 0],
     Some (Player.mkPlayerState drained_stream 0 120 true)) /\
  Player.play_step demo_params (Player.mkPlayerState drained_stream 0 120 true) =
    ([], Player.mkPlayerState drained_stream 0 120 false).
Proof.
  assert (Hd : Player.drain demo_params (Player.mkPlayerState drained_stream 0 120 false)
                 [Player.Play] =
               ([Player.Received Player.Play; Player.ProgramChange 0 0],
                Some (Player.mkPlayerState drained_stream 0 120 true))) by reflexivity.
  split; [exact Hd|].
  exact (proj1 (player_exhaustion_graceful demo_params _ _ _ _ drained_stream Hd
                  eq_refl eq_refl)).
Defined.

(** ** C10 (confirmed): on a ribbon with capacity at least one that
    holds at most [capacity] patches, [push] succeeds and keeps the bound;
    a full ribbon loses its leftmost patch first, and the new patch, with
    exactly the pushed digit and position, is appended at the right end. *)
Theorem ribbon_push_bounded (digit_color : Z -> Z -> Z) (r : Ribbon.RibbonState)
    (d : Z) (pos : nat) :
  (1 <= Ribbon.capacity r)%nat ->
  (List.length (Ribbon.patches r) <= Ribbon.capacity r)%nat ->
  exists r', Ribbon.push digit_color r d pos = Some r' /\
    Ribbon.capacity r' = Ribbon.capacity r /\
    (List.length (Ribbon.patches r') <= Ribbon.capacity r')%nat /\
    Ribbon.patches r' =
      (if Nat.leb (Ribbon.capacity r) (List.length (Ribbon.patches r))
       then tl (Ribbon.patches r) else Ribbon.patches r)
      ++ [Ribbon.mkPatch d (digit_color d (Ribbon.base r)) pos] /\
    last (Ribbon.patches r') (Ribbon.mkPatch 0 0 0) =
      Ribbon.mkPatch d (digit_color d (Ribbon.base r)) pos.
Proof.
  intros Hc Hl. unfold Ribbon.push.
  destruct r as [ps cap b]; simpl in *.
  destruct (Nat.leb_spec cap (List.length ps)).
  - destruct ps as [|x t]; simpl in *; [lia|].
    eexists. split; [reflexivity|]. simpl.
    rewrite length_app, last_last. simpl. repeat split; lia.
  - eexists. split; [reflexivity|]. simpl.
    rewrite length_app, last_last. simpl. repeat split; lia.
Qed.

Lemma ribbon_push_bounded_witness :
  exists r', Ribbon.push demo_color (App.left_ribbon demo_app) 7 11 = Some r' /\
    Ribbon.patches r' = [Ribbon.mkPatch 4 4 4; Ribbon.mkPatch 5 5 5; Ribbon.mkPatch 7 7 11].
Proof.
  destruct (ribbon_push_bounded demo_color (App.left_ribbon demo_app) 7 11)
    as (r' & E & _ & _ & Hp & _); [simpl; lia | simpl; lia |].
  exists r'. split; [exact E|]. rewrite Hp. reflexivity.
Defined.

(** ** C9 (confirmed): a snip deposits exactly one new tray entry, under
    the given name and at the end; while the tray holds at most 8 entries
    (it starts empty), the result is the old entries plus the new one with
    the oldest dropped when that would make 9, so any sequence of snips
    keeps at most 8 entries. *)
Theorem do_snip_tray `{Dual.DigitSource} (app : App.AppState) (nm : string) :
  (List.length (Ribbon.entries (App.tray app)) <= 8)%nat ->
  let ps := combine (Ribbon.patches (App.left_ribbon app))
                    (Ribbon.patches (App.right_ribbon app)) in
  let es := Ribbon.entries (App.tray app) ++ [Ribbon.mkTrayEntry nm ps 0] in
  Ribbon.entries (App.tray (App.do_snip app nm)) = skipn (List.length es - 8) es /\
  (List.length (Ribbon.entries (App.tray (App.do_snip app nm))) =
     Nat.min 8 (S (List.length (Ribbon.entries (App.tray app)))))%nat /\
  App.last_opt (Ribbon.entries (App.tray (App.do_snip app nm))) =
    Some (Ribbon.mkTrayEntry nm ps 0) /\
  (forall names, (List.length (Ribbon.entries
                   (App.tray (fold_left App.do_snip names (App.do_snip app nm)))) <= 8)%nat).
Proof.
  intros Hl ps es.
  rewrite AppFacts.do_snip_tray_eq. fold ps.
  destruct (AppFacts.deposit_fifo (App.tray app) nm ps Hl) as [E Hb].
  fold es in E.
  assert (Hes : List.length es = S (List.length (Ribbon.entries (App.tray app))))
    by (unfold es; rewrite length_app; simpl; lia).
  split; [exact E|]. split.
  - rewrite E, length_skipn. lia.
  - split.
    + rewrite E. destruct (Nat.eq_dec (List.length es - 8) 0) as [Z0|Z1].
      * rewrite Z0. apply AppFacts.last_opt_app.
      * replace (List.length es - 8)%nat with 1%nat by lia.
        unfold es. destruct (Ribbon.entries (App.tray app)) as [|e0 t] eqn:Et;
          [cbn [List.length] in Hes; lia|]. simpl. apply AppFacts.last_opt_app.
    + intros names. apply AppFacts.do_snips_bounded.
      rewrite AppFacts.do_snip_tray_eq. exact Hb.
Qed.

Lemma do_snip_tray_witness :
  Ribbon.entries (App.tray (App.do_snip demo_app "s1")) =
    [Ribbon.mkTrayEntry "s1"
       [(Ribbon.mkPatch 4 4 4, Ribbon.mkPatch 0 0 1);
        (Ribbon.mkPatch 5 5 5, Ribbon.mkPatch 1 1 2)] 0].
Proof.
  destruct (do_snip_tray demo_app "s1") as [E _]; [simpl; lia|].
  rewrite E. reflexivity.
Defined.

(** ** C4 (confirmed): Clap while Stopped starts playback (Playing,
    Stitching at progress 0, Play sent) and changes nothing else; Clap
    while Playing leaves the state as it is; Unclap while Playing stops
    playback (Stopped, Unstitching at progress 0, Stop sent) and changes
    nothing else; Unclap while Stopped leaves the state as it is. *)
Theorem clap_unclap `{Dual.DigitSource} (digit_color : Z -> Z -> Z) (app : App.AppState) :
  (App.play_state app = App.Stopped ->
   App.handle_gesture digit_color app App.Clap =
     Some (App.mkAppState (App.dual app) (App.left_ribbon app) (App.right_ribbon app)
             (App.sent app ++ [Player.Play]) App.Playing (Ribbon.Stitching 0)
             (App.tray app) (App.scissor_anim app) (App.snip_start app)
             (App.note_highlight app))) /\
  (App.play_state app = App.Playing ->
   App.handle_gesture digit_color app App.Clap = Some app) /\
  (App.play_state app = App.Playing ->
   App.handle_gesture digit_color app App.Unclap =
     Some (App.mkAppState (App.dual app) (App.left_ribbon app) (App.right_ribbon app)
             (App.sent app ++ [Player.Stop]) App.Stopped (Ribbon.Unstitching 0)
             (App.tray app) (App.scissor_anim app) (App.snip_start app)
             (App.note_highlight app))) /\
  (App.play_state app = App.Stopped ->
   App.handle_gesture digit_color app App.Unclap = Some app).
Proof.
  unfold App.handle_gesture, App.send.
  repeat split; intros Hs; rewrite Hs; reflexivity.
Qed.

Lemma clap_unclap_witness :
  exists app', App.handle_gesture demo_color demo_app App.Clap = Some app' /\
    App.play_state app' = App.Playing /\ App.sent app' = [Player.Play] /\
    App.handle_gesture demo_color app' App.Clap = Some app' /\
    App.handle_gesture demo_color app' App.Unclap =
      Some (App.mkAppState (App.dual app') (App.left_ribbon app') (App.right_ribbon app')
              [Player.Play; Player.Stop] App.Stopped (Ribbon.Unstitching 0)
              (App.tray app') (App.scissor_anim app') (App.snip_start app')
              (App.note_highlight app')) /\
    App.handle_gesture demo_color demo_app App.Unclap = Some demo_app.
Proof.
  destruct (clap_unclap demo_color demo_app) as (C1s & _ & _ & U1s).
  eexists. split; [exact (C1s eq_refl)|].
  split; [reflexivity|]. split; [reflexivity|].
  destruct (clap_unclap demo_color
              (App.mkAppState (App.dual demo_app) (App.left_ribbon demo_app)
                 (App.right_ribbon demo_app) (App.sent demo_app ++ [Player.Play])
                 App.Playing (Ribbon.Stitching 0) (App.tray demo_app)
                 (App.scissor_anim demo_app) (App.snip_start demo_app)
                 (App.note_highlight demo_app))) as (_ & C2p & U2p & _).
  split; [exact (C2p eq_refl)|]. split; [exact (U2p eq_refl)|].
  exact (U1s eq_refl).
Defined.

(** ** C7 (corrected): a tick with no note events leaves the highlight
    as it is; otherwise, for the most recent event [ev], the highlight is
    the index of the first visible left patch whose position plus one is
    at least [ev]'s left-position snapshot, and [None] when no patch
    qualifies.  The test is [p.position + 1 >= last.left_pos], one patch
    earlier than "position >= left_pos". *)
Theorem tick_highlight (app : App.AppState) (notes : list Player.NoteEvent) :
  (notes = [] -> App.note_highlight (App.tick app notes) = App.note_highlight app) /\
  (forall pre ev, notes = pre ++ [ev] ->
   let ps := Ribbon.patches (App.left_ribbon app) in
   (forall i, App.note_highlight (App.tick app notes) = Some i ->
      exists p, nth_error ps i = Some p /\
        (Player.left_pos ev <= Ribbon.position p + 1)%nat /\
        (forall j q, (j < i)%nat -> nth_error ps j = Some q ->
           (Ribbon.position q + 1 < Player.left_pos ev)%nat)) /\
   (App.note_highlight (App.tick app notes) = None ->
      forall p, In p ps -> (Ribbon.position p + 1 < Player.left_pos ev)%nat)).
Proof.
  split.
  - intros ->. reflexivity.
  - intros pre ev -> ps. unfold App.tick. simpl App.note_highlight.
    rewrite AppFacts.last_opt_app. split.
    + intros i Hi.
      destruct (AppFacts.position_of_some _ _ _ Hi) as (p & Hp & Fp & Hb).
      exists p. split; [exact Hp|]. split; [apply Nat.leb_le; exact Fp|].
      intros j q Hj Hq. apply Nat.leb_gt. exact (Hb j q Hj Hq).
    + intros Hn p Hin. apply Nat.leb_gt.
      exact (AppFacts.position_of_none _ _ Hn p Hin).
Qed.

Lemma tick_highlight_witness :
  App.note_highlight (App.tick demo_app [Player.mkNoteEvent 60 480 100 5 5]) = Some 0%nat /\
  exists p, nth_error (Ribbon.patches (App.left_ribbon demo_app)) 0 = Some p /\
    (5 <= Ribbon.position p + 1)%nat.
Proof.
  assert (E : App.note_highlight (App.tick demo_app [Player.mkNoteEvent 60 480 100 5 5])
              = Some 0%nat) by reflexivity.
  split; [exact E|].
  destruct (proj1 (proj2 (tick_highlight demo_app [Player.mkNoteEvent 60 480 100 5 5])
                     [] (Player.mkNoteEvent 60 480 100 5 5) eq_refl) 0%nat E)
    as (p & Hp & Hle & _).
  exists p. split; [exact Hp | exact Hle].
Defined.

(** Counterexample to C7 as worded: with visible left patches at
    positions 4 and 5 and a note whose left-position snapshot is 5, the
    code highlights the patch at position 4 (index 0), while the first
    patch with position at least 5 is at index 1. *)
Lemma tick_highlight_off_by_one :
  ~ (forall app pre ev,
       App.note_highlight (App.tick app (pre ++ [ev])) =
       App.spec_highlight (Ribbon.patches (App.left_ribbon app)) ev).
Proof.
  intros H.
  specialize (H demo_app [] (Player.mkNoteEvent 60 480 100 5 5)).
  vm_compute in H. discriminate H.
Qed.

(** ** C1 (confirmed, on the modelled [DualStream]): a sequence of snips
    with [from <= to] each succeeds and leaves both live cursors, hence
    [left_pos()] and [right_pos()], exactly as they were; and a single
    snip stores under its name the zipped digits of [from, to) read from
    fresh cursors of the two configurations, which depend on nothing but
    the configurations and the range, so repeating it stores the same
    sequence. *)
Theorem snip_preserves_cursors `{Dual.DigitSource} (ds : Dual.DualStream)
    (reqs : list (string * nat * nat)) :
  (Forall (fun '(_, a, b) => (a <= b)%nat) reqs ->
   exists ds', Dual.snip_all ds reqs = inl ds' /\
     Dual.left ds' = Dual.left ds /\ Dual.right ds' = Dual.right ds /\
     Dual.left_pos ds' = Dual.left_pos ds /\ Dual.right_pos ds' = Dual.right_pos ds) /\
  (forall nm a b, (a <= b)%nat ->
     exists ds', Dual.snip ds nm a b = inl ds' /\
       Dual.left_pos ds' = Dual.left_pos ds /\ Dual.right_pos ds' = Dual.right_pos ds /\
       Dual.get_snippet nm (Dual.snippets ds') =
         Some (Dual.mkSnippet
                 (combine (Dual.capture (Dual.config (Dual.left ds)) a b)
                          (Dual.capture (Dual.config (Dual.right ds)) a b)) a b) /\
       exists ds'', Dual.snip ds' nm a b = inl ds'' /\
         Dual.get_snippet nm (Dual.snippets ds'') = Dual.get_snippet nm (Dual.snippets ds')).
Proof.
  split.
  - intros Hf. destruct (AppFacts.snip_all_frame reqs Hf ds) as (ds' & E & Hl & Hr).
    exists ds'. unfold Dual.left_pos, Dual.right_pos. rewrite Hl, Hr. auto.
  - intros nm a b Hab. rewrite (AppFacts.snip_ok ds nm a b Hab).
    eexists. split; [reflexivity|]. cbn [Dual.left_pos Dual.right_pos Dual.left Dual.right
                                      Dual.snippets].
    split; [reflexivity|]. split; [reflexivity|].
    rewrite AppFacts.get_snippet_store. split; [reflexivity|].
    rewrite (AppFacts.snip_ok _ nm a b Hab).
    eexists. split; [reflexivity|]. cbn [Dual.left Dual.right Dual.snippets].
    rewrite !AppFacts.get_snippet_store. reflexivity.
Qed.

Lemma snip_preserves_cursors_witness :
  exists ds', Dual.snip_all demo_dual [("a"%string, 0%nat, 8%nat); ("b"%string, 4%nat, 12%nat)] = inl ds' /\
    Dual.left_pos ds' = 10%nat /\ Dual.right_pos ds' = 0%nat.
Proof.
  assert (Hf : Forall (fun '(_, a, b) => (a <= b)%nat)
                 [("a"%string, 0%nat, 8%nat); ("b"%string, 4%nat, 12%nat)]).
  { constructor; [cbn; lia|]. constructor; [cbn; lia|]. constructor. }
  destruct (proj1 (snip_preserves_cursors demo_dual _) Hf)
    as (ds' & E & _ & _ & Hl & Hr).
  exists ds'. split; [exact E|]. split; [exact Hl | exact Hr].
Defined.

(* ================================================================== *)
(** * Further properties of the code *)

(** ** spigot_midi: pitch and duration maps, instruments, the composer
    and the multi-track writer *)

Module ComposerFacts.
Import Composer.

Lemma nth_Forall {A} (P : A -> Prop) (l : list A) (i : nat) (d : A) :
  Forall P l -> (i < List.length l)%nat -> P (nth i l d).
Proof.
  intros HF Hi. rewrite Forall_forall in HF. apply HF. apply nth_In. exact Hi.
Qed.

Lemma mod_index (d : Z) (n : nat) : (0 < n)%nat ->
  (Z.to_nat (d mod Z.of_nat n) < n)%nat /\ Z.of_nat (Z.to_nat (d mod Z.of_nat n)) = d mod Z.of_nat n.
Proof.
  intros Hn. pose proof (Z.mod_pos_bound d (Z.of_nat n) ltac:(lia)). split; lia.
Qed.

Lemma strongly_sorted_nth (l : list Z) :
  StronglySorted Z.le l ->
  forall i j, (i <= j)%nat -> (j < List.length l)%nat -> nth i l 0 <= nth j l 0.
Proof.
  induction 1 as [|x t Hs IH Hall]; intros i j Hij Hj; simpl in *; [lia|].
  destruct i as [|i'], j as [|j']; try lia.
  - rewrite Forall_forall in Hall. apply Hall. apply nth_In. lia.
  - apply IH; lia.
Qed.

End ComposerFacts.

(** X1: [PitchMap::note_for] has no value (panics on [% 0]) for an empty scale; otherwise, for a non-negative root, digit and intervals, it is a MIDI note in 0..127. *)
Theorem note_for_bounds (pm : Composer.PitchMap) (d : Z) :
  (Composer.intervals (Composer.scale pm) = [] -> Composer.note_for pm d = None) /\
  (Composer.intervals (Composer.scale pm) <> [] -> 0 <= Composer.root pm -> 0 <= d ->
   Forall (fun s => 0 <= s) (Composer.intervals (Composer.scale pm)) ->
   exists p, Composer.note_for pm d = Some p /\ 0 <= p <= 127).
Proof.
  unfold Composer.note_for.
  destruct pm as [r [iv]]; simpl. split.
  - intros ->. reflexivity.
  - intros Hne Hr Hd HF.
    assert (Hn : (0 < List.length iv)%nat) by (destruct iv; [congruence | simpl; lia]).
    destruct (Z.eqb_spec (Z.of_nat (List.length iv)) 0) as [E|_]; [lia|].
    destruct (ComposerFacts.mod_index d _ Hn) as [Hi _].
    pose proof (ComposerFacts.nth_Forall _ _ _ 0 HF Hi) as Hs. simpl in Hs.
    assert (0 <= d / Z.of_nat (List.length iv)) by (apply Z.div_pos; lia).
    eexists. split; [reflexivity|]. lia.
Qed.

Lemma note_for_bounds_witness :
  exists p, Composer.note_for (Composer.pitch_major 60) 7 = Some p /\ 0 <= p <= 127.
Proof.
  apply (proj2 (note_for_bounds (Composer.pitch_major 60) 7)).
  - vm_compute. discriminate.
  - vm_compute. discriminate.
  - lia.
  - vm_compute. repeat constructor; discriminate.
Defined.

(** X2: a digit one scale length higher is one octave (12 semitones) higher, clamped at 127. *)
Theorem note_for_octave (pm : Composer.PitchMap) (d p : Z) :
  Composer.note_for pm d = Some p -> p < 127 ->
  Composer.note_for pm (d + Z.of_nat (List.length (Composer.intervals (Composer.scale pm)))) =
    Some (Z.min (p + 12) 127).
Proof.
  unfold Composer.note_for.
  destruct pm as [r [iv]]; simpl.
  set (n := Z.of_nat (List.length iv)).
  destruct (Z.eqb_spec n 0) as [|Hn]; [discriminate|].
  intros E Hp. injection E as E.
  replace (d + n) with (d + 1 * n) by lia.
  rewrite Z.div_add, Z.mod_add by exact Hn.
  f_equal. lia.
Qed.

Lemma note_for_octave_witness :
  Composer.note_for (Composer.pitch_major 60) 14 = Some 84.
Proof.
  apply (note_for_octave (Composer.pitch_major 60) 7 72); [vm_compute; reflexivity | lia].
Defined.

(** X3: for a sorted scale with intervals in 0..11, [note_for] is monotone in the digit; every built-in scale is such a scale. *)
Theorem note_for_monotone :
  (forall (pm : Composer.PitchMap) (d d' p p' : Z),
     StronglySorted Z.le (Composer.intervals (Composer.scale pm)) ->
     Forall (fun s => 0 <= s < 12) (Composer.intervals (Composer.scale pm)) ->
     d <= d' -> Composer.note_for pm d = Some p -> Composer.note_for pm d' = Some p' ->
     p <= p') /\
  Forall (fun sc => StronglySorted Z.le (Composer.intervals sc) /\
                    Forall (fun s => 0 <= s < 12) (Composer.intervals sc))
    Composer.builtin_scales.
Proof.
  split.
  - intros [r [iv]] d d' p p' Hs Hr Hdd. unfold Composer.note_for; simpl in *.
    set (n := Z.of_nat (List.length iv)).
    destruct (Z.eqb_spec n 0) as [|Hn]; [discriminate|].
    intros E E'. injection E as <-. injection E' as <-.
    assert (Hl : (0 < List.length iv)%nat) by lia.
    destruct (ComposerFacts.mod_index d _ Hl) as [Hi Hie].
    destruct (ComposerFacts.mod_index d' _ Hl) as [Hi' Hie'].
    fold n in Hie, Hie', Hi, Hi'.
    pose proof (ComposerFacts.nth_Forall _ _ _ 0 Hr Hi) as B. simpl in B.
    pose proof (ComposerFacts.nth_Forall _ _ _ 0 Hr Hi') as B'. simpl in B'.
    assert (Ho : d / n <= d' / n) by (apply Z.div_le_mono; lia).
    apply Z.min_le_compat_r.
    destruct (Z.eq_dec (d / n) (d' / n)) as [Eo|Ne].
    + assert (Hm : d mod n <= d' mod n).
      { rewrite (Z.mod_eq d n), (Z.mod_eq d' n) by lia. rewrite Eo. lia. }
      assert (nth (Z.to_nat (d mod n)) iv 0 <= nth (Z.to_nat (d' mod n)) iv 0).
      { apply ComposerFacts.strongly_sorted_nth; [exact Hs | lia | exact Hi']. }
      rewrite Eo. lia.
    + lia.
  - repeat constructor; cbn; lia.
Qed.

Lemma note_for_monotone_witness :
  Composer.note_for (Composer.pitch_major 60) 3 = Some 65 /\
  Composer.note_for (Composer.pitch_major 60) 9 = Some 76 /\ 65 <= 76.
Proof.
  split; [vm_compute; reflexivity|]. split; [vm_compute; reflexivity|].
  apply (proj1 note_for_monotone (Composer.pitch_major 60) 3 9).
  - vm_compute. repeat constructor; discriminate.
  - vm_compute. repeat constructor; discriminate.
  - lia.
  - vm_compute. reflexivity.
  - vm_compute. reflexivity.
Defined.

(** X4: [DurationMap::ticks_for] gives 120 for an empty table; otherwise it is an entry of the table and cycles with the table's length. *)
Theorem ticks_for_cycle (dm : Composer.DurationMap) (d : Z) :
  (Composer.table dm = [] -> Composer.ticks_for dm d = 120) /\
  (Composer.table dm <> [] ->
   In (Composer.ticks_for dm d) (Composer.table dm) /\
   Composer.ticks_for dm (d + Z.of_nat (List.length (Composer.table dm))) =
     Composer.ticks_for dm d).
Proof.
  unfold Composer.ticks_for. destruct dm as [[|x t']]; cbn [Composer.table]; split.
  - reflexivity.
  - congruence.
  - discriminate.
  - intros _. set (l := x :: t').
    assert (Hl : (0 < List.length l)%nat) by (simpl; lia).
    change (In (nth (Z.to_nat (d mod Z.of_nat (List.length l))) l 0) l /\
            nth (Z.to_nat ((d + Z.of_nat (List.length l)) mod Z.of_nat (List.length l))) l 0 =
            nth (Z.to_nat (d mod Z.of_nat (List.length l))) l 0).
    split.
    + apply nth_In. apply ComposerFacts.mod_index. exact Hl.
    + replace (d + Z.of_nat (List.length l)) with (d + 1 * Z.of_nat (List.length l)) by lia.
      rewrite Z.mod_add by lia. reflexivity.
Qed.

Lemma ticks_for_cycle_witness :
  In (Composer.ticks_for (Composer.musical 480) 3) (Composer.table (Composer.musical 480)) /\
  Composer.ticks_for (Composer.musical 480) 13 = Composer.ticks_for (Composer.musical 480) 3.
Proof.
  apply (proj2 (ticks_for_cycle (Composer.musical 480) 3)). vm_compute. discriminate.
Defined.

Module ComposerFacts2.
Import Composer.

Lemma digits_nth (base : Z) (i : nat) : (i < Z.to_nat base)%nat ->
  nth i (digits base) 0 = Z.of_nat i.
Proof.
  intros Hi. unfold digits.
  rewrite nth_indep with (d' := Z.of_nat 0) by (rewrite length_map, length_seq; exact Hi).
  rewrite map_nth, seq_nth by exact Hi. reflexivity.
Qed.

Lemma ticks_for_nonempty (l : list Z) (d : Z) : l <> [] ->
  ticks_for (mkDurationMap l) d = nth (Z.to_nat (d mod Z.of_nat (List.length l))) l 0.
Proof. intros Hl. unfold ticks_for. cbn [table]. destruct l; [congruence | reflexivity]. Qed.

Lemma ticks_for_map (f : Z -> Z) (base d : Z) : 0 < base ->
  ticks_for (mkDurationMap (map f (digits base))) d = f (d mod base).
Proof.
  intros Hb.
  assert (Hlen : List.length (map f (digits base)) = Z.to_nat base)
    by (unfold digits; rewrite !length_map, length_seq; reflexivity).
  rewrite ticks_for_nonempty
    by (intros E; rewrite E in Hlen; simpl in Hlen; lia).
  rewrite Hlen. replace (Z.of_nat (Z.to_nat base)) with base by lia.
  pose proof (Z.mod_pos_bound d base Hb).
  rewrite nth_indep with (d' := f 0) by (rewrite Hlen; lia).
  rewrite map_nth, digits_nth by lia. f_equal. lia.
Qed.

End ComposerFacts2.

(** X5: [DurationMap::fixed(ticks, base)] gives [ticks] for every digit when [base > 0], and the default 120 when [base] is 0. *)
Theorem duration_fixed (ticks base d : Z) :
  Composer.ticks_for (Composer.fixed ticks base) d = if 0 <? base then ticks else 120.
Proof.
  unfold Composer.fixed.
  destruct (Z.ltb_spec 0 base) as [Hb|Hb].
  - assert (Hlen : List.length (repeat ticks (Z.to_nat base)) = Z.to_nat base)
      by apply repeat_length.
    rewrite ComposerFacts2.ticks_for_nonempty
      by (intros E; rewrite E in Hlen; simpl in Hlen; lia).
    rewrite Hlen.
    pose proof (Z.mod_pos_bound d (Z.of_nat (Z.to_nat base)) ltac:(lia)).
    rewrite nth_indep with (d' := ticks) by (rewrite Hlen; lia).
    apply nth_repeat.
  - replace (Z.to_nat base) with 0%nat by lia. reflexivity.
Qed.

(** X6: for [base > 0], [DurationMap::linear] maps digit [d] to [(d mod base + 1) * unit_ticks], wrapped to [u32]. *)
Theorem duration_linear (unit_ticks base d : Z) : 0 < base ->
  Composer.ticks_for (Composer.linear unit_ticks base) d =
    (d mod base + 1) * unit_ticks mod u32_max.
Proof.
  intros Hb. unfold Composer.linear.
  rewrite ComposerFacts2.ticks_for_map by exact Hb. reflexivity.
Qed.

Lemma duration_linear_witness :
  Composer.ticks_for (Composer.linear 120 10) 13 = 480.
Proof. rewrite (duration_linear 120 10 13) by lia. reflexivity. Defined.

(** X7: for [base > 0], [DurationMap::exponential] maps digit [d] to [unit_ticks * 2^min(d mod base, 16)], wrapped to [u32]. *)
Theorem duration_exponential (unit_ticks base d : Z) : 0 < base ->
  Composer.ticks_for (Composer.exponential unit_ticks base) d =
    unit_ticks * 2 ^ Z.min (d mod base) 16 mod u32_max.
Proof.
  intros Hb. unfold Composer.exponential.
  rewrite ComposerFacts2.ticks_for_map by exact Hb.
  pose proof (Z.mod_pos_bound d base Hb).
  rewrite Z.shiftl_1_l by lia. reflexivity.
Qed.

Lemma duration_exponential_witness :
  Composer.ticks_for (Composer.exponential 120 10) 13 = 960.
Proof. rewrite (duration_exponential 120 10 13) by lia. reflexivity. Defined.

Lemma general_midi_find (g : Composer.GeneralMidi) :
  find (fun h => Composer.program h =? Composer.program g) Composer.all_general_midi = Some g.
Proof. destruct g; vm_compute; reflexivity. Qed.

Lemma general_midi_table :
  map Composer.program Composer.all_general_midi = map Z.of_nat (seq 0 128).
Proof. vm_compute. reflexivity. Qed.

(** X8: the [GeneralMidi] discriminants are exactly the programs 0..127, each used once. *)
Theorem general_midi_programs :
  (forall g, 0 <= Composer.program g <= 127) /\
  (forall g1 g2, Composer.program g1 = Composer.program g2 -> g1 = g2) /\
  (forall p, 0 <= p <= 127 -> exists g, Composer.program g = p).
Proof.
  split; [|split].
  - intros g. destruct g; vm_compute; split; discriminate.
  - intros g1 g2 E. pose proof (general_midi_find g1) as F1.
    rewrite E, general_midi_find in F1. injection F1 as ->. reflexivity.
  - intros p Hp.
    assert (Hin : In p (map Composer.program Composer.all_general_midi)).
    { rewrite general_midi_table. replace p with (Z.of_nat (Z.to_nat p)) by lia.
      apply in_map. apply in_seq. lia. }
    apply in_map_iff in Hin as (g & Hg & _). exists g. exact Hg.
Qed.

Module ComposerFacts3.
Import Composer.

Lemma note_for_range (pm : PitchMap) (d p : Z) :
  note_for pm d = Some p -> 0 <= root pm -> 0 <= d ->
  Forall (fun s => 0 <= s) (intervals (scale pm)) -> 0 <= p <= 127.
Proof.
  unfold note_for. destruct pm as [r [iv]]; simpl.
  destruct (Z.eqb_spec (Z.of_nat (List.length iv)) 0) as [|Hn]; [discriminate|].
  intros E Hr Hd HF. injection E as <-.
  assert (Hl : (0 < List.length iv)%nat) by lia.
  destruct (ComposerFacts.mod_index d _ Hl) as [Hi _].
  pose proof (ComposerFacts.nth_Forall _ _ _ 0 HF Hi) as Hs. simpl in Hs.
  assert (0 <= d / Z.of_nat (List.length iv)) by (apply Z.div_pos; lia).
  lia.
Qed.

Lemma ticks_for_u32 (dm : DurationMap) (d : Z) :
  Forall is_u32 (table dm) -> is_u32 (ticks_for dm d).
Proof.
  intros HF. destruct (table dm) as [|x t] eqn:E.
  - unfold ticks_for. rewrite E. unfold is_u32, u32_max. lia.
  - rewrite <- E in HF. destruct dm as [l]. cbn [table] in E, HF.
    rewrite ComposerFacts2.ticks_for_nonempty by (rewrite E; discriminate).
    rewrite Forall_forall in HF. apply HF. apply nth_In.
    apply ComposerFacts.mod_index. rewrite E. simpl. lia.
Qed.

Lemma apply_setter_ok (c c' : MidiComposer) (s : Setter) :
  composer_ok c -> setter_typed s -> apply_setter c s = Some c' -> composer_ok c'.
Proof.
  destruct c as [bpm ins pm dm vel ch tq desc].
  unfold composer_ok, setter_typed, is_u32, u32_max; cbn -[Z.pow].
  intros (H1 & H2 & H3 & H4 & H5 & H6 & H7 & H8) Ht E.
  destruct s; cbn -[Z.pow] in E.
  - destruct ((0 <? bpm0) && (bpm0 <=? 300)) eqn:B; [|discriminate].
    injection E as <-. apply andb_true_iff in B as [B1 B2].
    apply Z.ltb_lt in B1. apply Z.leb_le in B2. cbn -[Z.pow]. repeat split; auto; lia.
  - injection E as <-. cbn -[Z.pow].
    assert (0 <= program gm <= 127) by (destruct gm; vm_compute; split; discriminate).
    repeat split; auto; lia.
  - injection E as <-. cbn -[Z.pow]. repeat split; auto; lia.
  - injection E as <-. cbn -[Z.pow]. destruct Ht as [Hr Hiv]. repeat split; auto; lia.
  - injection E as <-. cbn -[Z.pow]. repeat split; auto; lia.
  - destruct (0 <? t) eqn:B; [|discriminate]. apply Z.ltb_lt in B.
    injection E as <-. cbn -[Z.pow]. repeat split; auto; lia.
  - injection E as <-. cbn -[Z.pow]. repeat split; auto; lia.
  - injection E as <-. cbn -[Z.pow].
    change (Z.land ch0 15) with (Z.land ch0 (Z.ones 4)). rewrite Z.land_ones by lia.
    pose proof (Z.mod_pos_bound ch0 (2 ^ 4) ltac:(lia)).
    repeat split; auto; lia.
  - injection E as <-. cbn -[Z.pow]. repeat split; auto; lia.
Qed.

Lemma new_ok : composer_ok new.
Proof.
  unfold composer_ok, new, musical, pitch_major, scale_major, u32_max.
  cbn [tempo_bpm tpq channel instrument velocity root pitch_map scale intervals
       duration_map table program].
  repeat split; try lia.
  - repeat (apply Forall_cons; [lia|]). apply Forall_nil.
  - unfold is_u32, u32_max.
    repeat (apply Forall_cons; [vm_compute; split; congruence|]). apply Forall_nil.
Qed.

Lemma build_ok (ss : list Setter) : forall c c',
  composer_ok c -> Forall setter_typed ss -> build c ss = Some c' -> composer_ok c'.
Proof.
  induction ss as [|s ss IH]; intros c c' Hc Ht E; simpl in E.
  - injection E as <-. exact Hc.
  - inversion Ht as [|? ? Hs Hss]; subst.
    destruct (apply_setter c s) as [c1|] eqn:E1; [|discriminate].
    exact (IH c1 c' (apply_setter_ok c c1 s Hc Hs E1) Hss E).
Qed.

Lemma resolve_all_spec (c : MidiComposer) (pairs : list (Z * Z)) (ns : list Note) :
  resolve_all c pairs = Some ns ->
  List.length ns = List.length pairs /\
  forall i l r, nth_error pairs i = Some (l, r) ->
    exists p, note_for (pitch_map c) r = Some p /\
      nth_error ns i = Some (mkNote p (ticks_for (duration_map c) l) (velocity c)).
Proof.
  revert ns. induction pairs as [|[l r] rest IH]; intros ns E; simpl in E.
  - injection E as <-. split; [reflexivity|]. intros [|i]; discriminate.
  - destruct (note_for (pitch_map c) r) as [p|] eqn:Ep; [|discriminate].
    destruct (resolve_all c rest) as [ns'|] eqn:Er; [|discriminate].
    injection E as <-. destruct (IH ns' eq_refl) as [Hl Hn].
    split; [simpl; lia|].
    intros [|i] l' r' Hi; simpl in Hi.
    + injection Hi as <- <-. exists p. split; [exact Ep | reflexivity].
    + exact (Hn i l' r' Hi).
Qed.

Lemma resolve_all_some (c : MidiComposer) (pairs : list (Z * Z)) :
  intervals (scale (pitch_map c)) <> [] -> exists ns, resolve_all c pairs = Some ns.
Proof.
  intros Hne. induction pairs as [|[l r] rest [ns IH]]; simpl.
  - eexists. reflexivity.
  - unfold note_for at 1.
    destruct (Z.eqb_spec (Z.of_nat (List.length (intervals (scale (pitch_map c))))) 0) as [E|_].
    + destruct (intervals (scale (pitch_map c))); [congruence | discriminate].
    + rewrite IH. eexists. reflexivity.
Qed.

Lemma resolve_all_none (c : MidiComposer) (lr : Z * Z) (rest : list (Z * Z)) :
  intervals (scale (pitch_map c)) = [] -> resolve_all c (lr :: rest) = None.
Proof.
  intros E. destruct lr as [l r]. simpl. unfold note_for. rewrite E. reflexivity.
Qed.

Lemma resolve_all_nil (c : MidiComposer) (lr : Z * Z) (rest : list (Z * Z)) :
  resolve_all c (lr :: rest) <> Some [].
Proof.
  destruct lr as [l r]. simpl.
  destruct (note_for (pitch_map c) r); [|discriminate].
  destruct (resolve_all c rest); discriminate.
Qed.

Lemma track_chunks_prefix (ts : list MidiTrack) : forall out b,
  track_chunks ts out = Some b -> exists suf, b = out ++ suf.
Proof.
  induction ts as [|tr rest IH]; intros out b E; cbn [track_chunks] in E.
  - injection E as <-. exists []. rewrite app_nil_r. reflexivity.
  - destruct (build_track_chunk tr) as [chunk|]; [|discriminate].
    destruct (IH _ _ E) as [suf ->]. eexists. rewrite <- app_assoc. reflexivity.
Qed.

End ComposerFacts3.

(** X9: a track composed by a composer built from [MidiComposer::new] with well-typed setter arguments, over [u8] digit pairs, satisfies [composed]. *)
Theorem composer_tracks_composed (ss : list Composer.Setter) (c : Composer.MidiComposer)
    (n : nat) (pairs : list (Z * Z)) (tr : MidiTrack) :
  Forall Composer.setter_typed ss ->
  Composer.build Composer.new ss = Some c ->
  Forall (fun '(l, r) => 0 <= l < 256 /\ 0 <= r < 256) pairs ->
  Composer.compose c n pairs = Some (inl tr) ->
  composed tr.
Proof.
  intros Ht Hb Hp E.
  pose proof (ComposerFacts3.build_ok ss _ _ ComposerFacts3.new_ok Ht Hb) as Hc.
  unfold Composer.compose in E.
  destruct (Nat.eqb n 0); [discriminate|].
  destruct (Composer.resolve_all c pairs) as [ns|] eqn:Er; [|discriminate].
  injection E as <-.
  destruct Hc as (H1 & H2 & H3 & H4 & H5 & H6 & H7 & H8).
  unfold composed, Composer.track_of; cbn [tempo_bpm ticks_per_quarter channel instrument notes].
  repeat split; try lia.
  destruct (ComposerFacts3.resolve_all_spec c pairs ns Er) as [Hl Hn].
  apply Forall_forall. intros nt Hin.
  apply In_nth_error in Hin as [i Hi].
  assert (Hi' : (i < List.length pairs)%nat)
    by (rewrite <- Hl; apply nth_error_Some; congruence).
  destruct (nth_error pairs i) as [[l r]|] eqn:Ep;
    [|apply nth_error_None in Ep; lia].
  destruct (Hn i l r Ep) as (p & Hnf & Hns). rewrite Hi in Hns. injection Hns as ->.
  pose proof (nth_error_In _ _ Ep) as Hlr. rewrite Forall_forall in Hp.
  specialize (Hp _ Hlr). cbn beta iota in Hp.
  cbn [pitch velocity duration].
  pose proof (ComposerFacts3.note_for_range _ _ _ Hnf ltac:(lia) ltac:(lia)
                (Forall_impl _ (fun x (Hx : 0 <= x < 256) => proj1 Hx) H7)).
  pose proof (ComposerFacts3.ticks_for_u32 _ l H8) as Hu. unfold is_u32 in Hu.
  repeat split; lia.
Qed.

Lemma composer_tracks_composed_witness :
  Composer.build Composer.new [Composer.Tempo 90; Composer.Velocity 90; Composer.Channel 3] =
    Some (Composer.mkMidiComposer 90 0 (Composer.pitch_major 60) (Composer.musical 480)
            90 3 480 (ascii_bytes "spigot_midi")) /\
  composed (Composer.track_of
              (Composer.mkMidiComposer 90 0 (Composer.pitch_major 60) (Composer.musical 480)
                 90 3 480 (ascii_bytes "spigot_midi"))
              [mkNote 65 480 90; mkNote 62 120 90]).
Proof.
  split; [vm_compute; reflexivity|].
  apply (composer_tracks_composed [Composer.Tempo 90; Composer.Velocity 90; Composer.Channel 3]
           (Composer.mkMidiComposer 90 0 (Composer.pitch_major 60) (Composer.musical 480)
              90 3 480 (ascii_bytes "spigot_midi")) 2 [(5, 3); (1, 1)]).
  - repeat constructor; cbn; unfold is_u32, u32_max; lia.
  - vm_compute. reflexivity.
  - repeat constructor; lia.
  - vm_compute. reflexivity.
Defined.

Module ComposerFacts4.
Import Composer.

Lemma track_chunks_spec (ts : list MidiTrack) : forall out b,
  track_chunks ts out = Some b <->
  exists chunks, Forall2 (fun tr ch => build_track_chunk tr = Some ch) ts chunks /\
    b = out ++ List.concat (map chunk_bytes chunks).
Proof.
  induction ts as [|tr rest IH]; intros out b; cbn [track_chunks]; split.
  - intros E. injection E as <-. exists []. split; [constructor|].
    cbn [map List.concat]. rewrite app_nil_r. reflexivity.
  - intros ([|ch chs] & HF & ->); [|inversion HF].
    cbn [map List.concat]. rewrite app_nil_r. reflexivity.
  - destruct (build_track_chunk tr) as [ch|] eqn:Eb; [|discriminate].
    intros E. apply IH in E as (chs & HF & ->).
    exists (ch :: chs). split; [constructor; assumption|].
    cbn [map List.concat]. fold (chunk_bytes ch). rewrite app_assoc. reflexivity.
  - intros ([|ch chs] & HF & ->); inversion HF as [|? ? ? ? Hb Hr]; subst.
    rewrite Hb. apply IH. exists chs. split; [exact Hr|].
    cbn [map List.concat]. fold (chunk_bytes ch). rewrite app_assoc. reflexivity.
Qed.

End ComposerFacts4.

(** X10: [compose(0)] is the error "n must be > 0"; otherwise each pair [(l, r)] becomes, in order, the note [note_for(r)], [ticks_for(l)], [velocity]; an empty scale panics on the first pair. *)
Theorem compose_notes (c : Composer.MidiComposer) (n : nat) (pairs : list (Z * Z)) :
  (n = 0%nat -> Composer.compose c n pairs = Some (inr "n must be > 0"%string)) /\
  (n <> 0%nat -> Composer.intervals (Composer.scale (Composer.pitch_map c)) <> [] ->
   exists ns, Composer.compose c n pairs = Some (inl (Composer.track_of c ns)) /\
     List.length ns = List.length pairs /\
     forall i l r, nth_error pairs i = Some (l, r) ->
       exists p, Composer.note_for (Composer.pitch_map c) r = Some p /\
         nth_error ns i =
           Some (mkNote p (Composer.ticks_for (Composer.duration_map c) l) (Composer.velocity c))) /\
  (n <> 0%nat -> Composer.intervals (Composer.scale (Composer.pitch_map c)) = [] ->
   pairs <> [] -> Composer.compose c n pairs = None).
Proof.
  unfold Composer.compose. split; [|split].
  - intros ->. reflexivity.
  - intros Hn Hne. destruct (Nat.eqb_spec n 0) as [|_]; [contradiction|].
    destruct (ComposerFacts3.resolve_all_some c pairs Hne) as [ns E].
    rewrite E. exists ns. split; [reflexivity|].
    exact (ComposerFacts3.resolve_all_spec c pairs ns E).
  - intros Hn He Hp. destruct (Nat.eqb_spec n 0) as [|_]; [contradiction|].
    destruct pairs as [|lr rest]; [contradiction|].
    rewrite ComposerFacts3.resolve_all_none by exact He. reflexivity.
Qed.

Lemma compose_notes_witness :
  exists ns, Composer.compose Composer.new 2 [(5, 1); (3, 4)] =
    Some (inl (Composer.track_of Composer.new ns)) /\ List.length ns = 2%nat.
Proof.
  destruct (proj1 (proj2 (compose_notes Composer.new 2 [(5, 1); (3, 4)])))
    as (ns & E & Hl & _).
  - discriminate.
  - vm_compute. discriminate.
  - exists ns. split; [exact E | exact Hl].
Defined.

(** X11: [compose_filtered] is [compose] over the pairs the predicate keeps, except that keeping none is the error "filter rejected all notes". *)
Theorem compose_filtered_is_compose (c : Composer.MidiComposer) (n : nat)
    (pred : Z -> Z -> bool) (pairs : list (Z * Z)) :
  Composer.compose_filtered c n pred pairs =
    if Nat.eqb n 0 then Composer.compose c n pairs else
    match filter (fun '(l, r) => pred l r) pairs with
    | [] => Some (inr "filter rejected all notes"%string)
    | kept => Composer.compose c n kept
    end.
Proof.
  unfold Composer.compose_filtered, Composer.compose.
  destruct (Nat.eqb n 0); [reflexivity|].
  destruct (filter (fun '(l, r) => pred l r) pairs) as [|lr rest] eqn:Ef; [reflexivity|].
  destruct (Composer.resolve_all c (lr :: rest)) as [[|nt ns]|] eqn:Er; try reflexivity.
  exfalso. exact (ComposerFacts3.resolve_all_nil c lr rest Er).
Qed.

(** X12: [multi_track_bytes] of no track is empty; otherwise it is a format-1 header with the track count modulo 2^16 and the first track's resolution, then one MTrk chunk per track, in order. *)
Theorem multi_track_layout (ts : list MidiTrack) (b : list Z) :
  (ts = [] -> Composer.multi_track_bytes ts = Some []) /\
  forall t0 rest, ts = t0 :: rest ->
  (Composer.multi_track_bytes ts = Some b <->
   exists chunks, Forall2 (fun tr ch => build_track_chunk tr = Some ch) ts chunks /\
     b = ascii_bytes "MThd" ++ [0; 0; 0; 6] ++ [0; 1] ++
         to_be_bytes 2 (Z.of_nat (List.length ts) mod 2 ^ 16) ++
         to_be_bytes 2 (ticks_per_quarter t0) ++
         List.concat (map (fun ch => ascii_bytes "MTrk" ++
                                to_be_bytes 4 (Z.of_nat (List.length ch) mod u32_max) ++ ch)
                     chunks)).
Proof.
  split.
  - intros ->. reflexivity.
  - intros t0 rest ->. unfold Composer.multi_track_bytes.
    rewrite ComposerFacts4.track_chunks_spec.
    split; intros (chs & HF & E); exists chs; split; try exact HF;
      rewrite E; unfold Composer.chunk_bytes; rewrite <- !app_assoc; reflexivity.
Qed.

Lemma multi_track_layout_witness :
  exists b, Composer.multi_track_bytes [example_track; example_track] = Some b.
Proof.
  destruct (build_track_chunk example_track) as [ch|] eqn:Eb.
  - exists (ascii_bytes "MThd" ++ [0; 0; 0; 6] ++ [0; 1] ++
         to_be_bytes 2 (Z.of_nat 2 mod 2 ^ 16) ++
         to_be_bytes 2 (ticks_per_quarter example_track) ++
         List.concat (map (fun ch => ascii_bytes "MTrk" ++
                                to_be_bytes 4 (Z.of_nat (List.length ch) mod u32_max) ++ ch)
                     [ch; ch])).
    apply (proj2 (multi_track_layout [example_track; example_track] _) example_track
             [example_track] eq_refl).
    exists [ch; ch]. split; [repeat constructor; exact Eb | reflexivity].
  - vm_compute in Eb. discriminate.
Defined.

(** X13: [multi_track_bytes] of one track is [to_bytes] of it with the format byte changed from 0 to 1. *)
Theorem multi_track_single (tr : MidiTrack) :
  Composer.multi_track_bytes [tr] =
    option_map (fun b => firstn 9 b ++ [1] ++ skipn 10 b) (to_bytes tr).
Proof.
  unfold Composer.multi_track_bytes, to_bytes. cbn [Composer.track_chunks].
  destruct (build_track_chunk tr) as [ch|]; reflexivity.
Qed.

(** ** leap_spigot: the pre-fill, the gestures, the animations, the simulated
    gesture source and the playback thread *)

Module RibbonFacts.
Import Ribbon.

Lemma push_room (dc : Z -> Z -> Z) (r : RibbonState) (d : Z) (pos : nat) :
  (List.length (patches r) < capacity r)%nat ->
  push dc r d pos =
    Some (mkRibbonState (patches r ++ [mkPatch d (dc d (base r)) pos]) (capacity r) (base r)).
Proof.
  intros Hl. unfold push.
  destruct (Nat.leb_spec (capacity r) (List.length (patches r))); [lia | reflexivity].
Qed.

Lemma push_ok (dc : Z -> Z -> Z) (r : RibbonState) (d : Z) (pos : nat) :
  (1 <= capacity r)%nat -> (List.length (patches r) <= capacity r)%nat ->
  exists r', push dc r d pos = Some r' /\ capacity r' = capacity r /\
    (List.length (patches r') <= capacity r')%nat.
Proof.
  intros Hc Hl. unfold push. destruct r as [ps cap b]; cbn [patches capacity base] in *.
  destruct (Nat.leb_spec cap (List.length ps)).
  - destruct ps as [|x t]; cbn [List.length] in *; [lia|].
    eexists. split; [reflexivity|]. cbn [patches capacity].
    rewrite length_app. cbn [List.length]. split; [reflexivity | lia].
  - eexists. split; [reflexivity|]. cbn [patches capacity].
    rewrite length_app. cbn [List.length]. split; [reflexivity | lia].
Qed.

Lemma push_empty_zero (dc : Z -> Z -> Z) (r : RibbonState) (d : Z) (pos : nat) :
  capacity r = 0%nat -> patches r = [] -> push dc r d pos = None.
Proof. intros Hc Hp. unfold push. rewrite Hc, Hp. reflexivity. Qed.

End RibbonFacts.

Module AppFacts2.
Import Ribbon.

Lemma pull_ok `{Dual.DigitSource} (dc : Z -> Z -> Z) (side : bool) (steps : nat) :
  forall ds r, (1 <= capacity r)%nat -> (List.length (patches r) <= capacity r)%nat ->
  exists ds' r', App.pull dc side steps ds r = Some (ds', r') /\
    capacity r' = capacity r /\ (List.length (patches r') <= capacity r')%nat.
Proof.
  induction steps as [|n IH]; intros ds r Hc Hl; cbn [App.pull].
  - exists ds, r. auto.
  - destruct (Dual.next (if side then Dual.left ds else Dual.right ds)) as [[dg|] c'].
    + match goal with
      | |- context [push dc r dg ?p] =>
          destruct (RibbonFacts.push_ok dc r dg p Hc Hl) as (r1 & E & Hc1 & Hl1)
      end.
      rewrite E.
      match goal with
      | |- context [App.pull dc side n ?d r1] =>
          destruct (IH d r1 ltac:(lia) Hl1) as (ds' & r' & E' & Hc' & Hl')
      end.
      exists ds', r'. split; [exact E' | split; [lia | exact Hl']].
    + exact (IH _ r Hc Hl).
Qed.

Lemma drain_quit {S : Type} `{ZipStream S} (cfg : Player.PlayerParams)
    (pre post : list Player.PlayerCommand) :
  ~ In Player.Quit pre -> forall st : Player.PlayerState S,
  Player.drain cfg st (pre ++ Player.Quit :: post) =
    (fst (Player.drain cfg st pre) ++ [Player.Received Player.Quit], None).
Proof.
  induction pre as [|c pre IH]; intros Hq st; [reflexivity|].
  assert (Hq' : ~ In Player.Quit pre) by (intros Hin; apply Hq; right; exact Hin).
  destruct c; cbn [app Player.drain];
    try (rewrite (IH Hq'); destruct (Player.drain cfg _ pre); reflexivity).
  exfalso. apply Hq. left. reflexivity.
Qed.

Lemma drain_stopped {S : Type} `{ZipStream S} (cfg : Player.PlayerParams)
    (cmds : list Player.PlayerCommand) :
  ~ In Player.Play cmds -> forall st : Player.PlayerState S, Player.playing st = false ->
  Forall (fun e => match e with
                   | Player.Received _ | Player.ProgramChange _ _ => True
                   | _ => False end) (fst (Player.drain cfg st cmds)) /\
  forall st', snd (Player.drain cfg st cmds) = Some st' -> Player.playing st' = false.
Proof.
  induction cmds as [|c cs IH]; intros Hp st Hs; cbn [Player.drain].
  - split; [constructor|]. intros st' E. injection E as <-. exact Hs.
  - assert (Hp' : ~ In Player.Play cs) by (intros Hin; apply Hp; right; exact Hin).
    destruct c.
    + exfalso. apply Hp. left. reflexivity.
    + destruct (IH Hp' (Player.set_playing false st) eq_refl) as [Hf Hr].
      destruct (Player.drain cfg (Player.set_playing false st) cs) as [acts r].
      cbn [fst snd] in *. split; [constructor; [exact I | exact Hf] | exact Hr].
    + destruct (IH Hp' (Player.mkPlayerState (Player.stream st) program (Player.tempo_bpm st) (Player.playing st)) Hs) as [Hf Hr].
      destruct (Player.drain cfg _ cs) as [acts r].
      cbn [fst snd] in *. split; [repeat constructor; assumption | exact Hr].
    + destruct (IH Hp' (Player.mkPlayerState (Player.stream st) (Player.instrument st) bpm (Player.playing st)) Hs) as [Hf Hr].
      destruct (Player.drain cfg _ cs) as [acts r].
      cbn [fst snd] in *. split; [repeat constructor; assumption | exact Hr].
    + cbn [fst snd]. split; [repeat constructor | discriminate].
Qed.

End AppFacts2.

Module AppFacts3.
Import Ribbon.

Lemma prefill_spec {St : Type} `{ZipStream St} (dc : Z -> Z -> Z) (k : nat) :
  forall (i : nat) (pre : St) (l r : RibbonState),
  (List.length (patches l) + k <= capacity l)%nat ->
  (List.length (patches r) + k <= capacity r)%nat ->
  exists nl nr,
    App.prefill dc i k pre l r =
      Some (mkRibbonState (patches l ++ nl) (capacity l) (base l),
            mkRibbonState (patches r ++ nr) (capacity r) (base r)) /\
    map digit nl = map fst (App.pairs_of k pre) /\
    map digit nr = map snd (App.pairs_of k pre) /\
    map position nl = map position nr /\
    Forall (fun p => color p = dc (digit p) (base l)) nl /\
    Forall (fun p => color p = dc (digit p) (base r)) nr /\
    Forall (fun q => i <= q < i + k)%nat (map position nl) /\
    StronglySorted lt (map position nl) /\
    ((forall s : St, fst (DS.zip_next s) <> None) -> map position nl = seq i k).
Proof.
  induction k as [|k IH]; intros i pre l r Hl Hr; cbn [App.prefill App.pairs_of].
  - exists [], []. destruct l, r. cbn [patches capacity base]. rewrite !app_nil_r.
    repeat split; try constructor; try (intros _; reflexivity).
  - destruct (DS.zip_next pre) as [[[ld rd]|] pre'] eqn:Ez.
    + rewrite RibbonFacts.push_room by lia. rewrite RibbonFacts.push_room by lia.
      match goal with
      | |- context [App.prefill dc (S i) k pre' ?l1 ?r1] =>
          destruct (IH (S i) pre' l1 r1) as (nl & nr & E & Hdl & Hdr & Hp & Hcl & Hcr & Hrg & Hs & Hy);
          cbn [patches capacity base] in *; [rewrite length_app; cbn [List.length]; lia
                                           | rewrite length_app; cbn [List.length]; lia |]
      end.
      rewrite E, <- !app_assoc.
      exists (mkPatch ld (dc ld (base l)) i :: nl), (mkPatch rd (dc rd (base r)) i :: nr).
      cbn [app map digit position color fst snd]. split; [reflexivity|].
      split; [f_equal; exact Hdl|]. split; [f_equal; exact Hdr|].
      split; [f_equal; exact Hp|].
      split; [constructor; [reflexivity | exact Hcl]|].
      split; [constructor; [reflexivity | exact Hcr]|].
      split; [constructor; [lia | eapply Forall_impl; [|exact Hrg]; intros q Hq; cbn beta in *; lia]|].
      split; [constructor; [exact Hs | eapply Forall_impl; [|exact Hrg]; intros q Hq; cbn beta in *; lia]|].
      intros Hall. cbn [seq]. f_equal. exact (Hy Hall).
    + destruct (IH (S i) pre' l r ltac:(lia) ltac:(lia))
        as (nl & nr & E & Hdl & Hdr & Hp & Hcl & Hcr & Hrg & Hs & Hy).
      exists nl, nr. rewrite E. repeat split; try assumption.
      * eapply Forall_impl; [|exact Hrg]. intros q Hq. cbn beta in *. lia.
      * intros Hall. exfalso. apply (Hall pre). rewrite Ez. reflexivity.
Qed.

Lemma tray_tick_entries (t : SnippetTray) :
  entries (tray_tick t) =
    map (fun e => if Qle_bool 1 (slide_in e) then e
                  else mkTrayEntry (name e) (tpatches e) (Qmin1 (f32_add (slide_in e) f32_0_08)))
        (entries t).
Proof. reflexivity. Qed.

(** The slide-in step of one entry. *)
Definition slide_next (s : Q) : Q :=
  if Qle_bool 1 s then s else Qmin1 (f32_add s f32_0_08).

(** [round_half_even a b] is within half a unit of [a / b]. *)
Lemma round_half_even_lower (a b : Z) : 0 < b ->
  2 * a - b <= 2 * b * round_half_even a b.
Proof.
  intros Hb. unfold round_half_even.
  pose proof (Z.div_mod a b ltac:(lia)) as Ea.
  pose proof (Z.mod_pos_bound a b Hb) as Hm.
  destruct (Z.compare_spec (2 * (a mod b)) b) as [C|C|C].
  - destruct (Z.even (a / b)); nia.
  - nia.
  - nia.
Qed.

Lemma f32_round_pos_lower (n : Z) (d : positive) : 0 < n -> n < 2 * Zpos d ->
  ((n # d) - (1 # 16777216) <= f32_round_pos n d)%Q.
Proof.
  intros Hn Hd. unfold f32_round_pos.
  pose proof (Z.log2_spec n Hn) as [Ln1 Ln2].
  pose proof (Z.log2_spec (Zpos d) ltac:(lia)) as [Ld1 Ld2].
  pose proof (Z.log2_nonneg n). pose proof (Z.log2_nonneg (Zpos d)).
  set (ln := Z.log2 n) in *. set (ld := Z.log2 (Zpos d)) in *.
  rewrite Z.pow_succ_r in Ln2, Ld2 by lia.
  assert (He : ln - ld - (if n * 2 ^ ld <? Zpos d * 2 ^ ln then 1 else 0) <= 0).
  { destruct (Z.le_gt_cases ln ld) as [Hl|Hl];
      [destruct (_ <? _); lia|].
    assert (Hl' : ln = ld + 1).
    { destruct (Z.le_gt_cases ln (ld + 1)) as [H1|H1]; [lia|].
      assert (2 ^ (ld + 2) <= 2 ^ ln) by (apply Z.pow_le_mono_r; lia).
      rewrite Z.pow_add_r in * by lia. nia. }
    rewrite Hl', Z.pow_add_r by lia.
    rewrite (proj2 (Z.ltb_lt _ _)); [lia|].
    assert (0 < 2 ^ ld) by (apply Z.pow_pos_nonneg; lia). nia. }
  set (e := ln - ld - _) in *.
  rewrite (proj2 (Z.ltb_lt (Z.max (e - 23) (-149)) 0)) by lia.
  set (k := - Z.max (e - 23) (-149)).
  assert (Hk : 8388608 <= 2 ^ k).
  { change 8388608 with (2 ^ 23). apply Z.pow_le_mono_r; lia. }
  pose proof (round_half_even_lower (n * 2 ^ k) (Zpos d) ltac:(lia)) as Hr.
  set (r := round_half_even _ _) in *.
  unfold Qle, Qminus, Qplus, Qopp. cbn [Qnum Qden].
  rewrite !Pos2Z.inj_mul, Z2Pos.id by lia.
  assert (Zpos d * 8388608 <= Zpos d * 2 ^ k) by (apply Z.mul_le_mono_nonneg_l; lia).
  change (Zpos 16777216) with 16777216. change (Z.neg 1) with (-1). nia.
Qed.

Lemma f32_round_lower (x : Q) : (0 < x)%Q -> (x < 2)%Q ->
  (x - (1 # 16777216) <= f32_round x)%Q.
Proof.
  destruct x as [[|p|p] d]; unfold Qlt; cbn [Qnum Qden]; intros H1 H2; try lia.
  unfold f32_round. cbn [Qnum Qden]. apply f32_round_pos_lower; lia.
Qed.

Lemma slide_next_bounds (s : Q) : (0 <= s)%Q ->
  (0 <= slide_next s)%Q /\ (s <= slide_next s)%Q /\ ((s <= 1)%Q -> (slide_next s <= 1)%Q).
Proof.
  intros Hs. unfold slide_next.
  destruct (Qle_bool 1 s) eqn:B1; [split; [exact Hs | split; [apply Qle_refl | exact (fun h => h)]]|].
  apply not_true_iff_false in B1. rewrite Qle_bool_iff in B1.
  assert (Hc : ((1 # 16777216) < f32_0_08 /\ f32_0_08 < 1)%Q) by (split; vm_compute; reflexivity).
  pose proof (f32_round_lower (s + f32_0_08) ltac:(lra) ltac:(lra)) as Hf.
  unfold Qmin1, f32_add. destruct (Qle_bool (f32_round (s + f32_0_08)) 1) eqn:B2.
  - apply Qle_bool_iff in B2. split; [lra | split; [lra | intros _; exact B2]].
  - split; [lra | split; [lra | intros _; apply Qle_refl]].
Qed.

Lemma slide_next_iter_13 (k : nat) : Nat.iter (13 + k) slide_next 0%Q = 1%Q.
Proof.
  induction k as [|k IH]; [vm_compute; reflexivity|].
  rewrite Nat.add_succ_r, Nat.iter_succ, IH. reflexivity.
Qed.

Lemma slide_next_iter_lt (n : nat) : (n < 13)%nat ->
  (0 <= Nat.iter n slide_next 0%Q < 1)%Q.
Proof.
  intros Hn.
  do 13 (destruct n as [|n]; [split; vm_compute; [discriminate | reflexivity]|]).
  lia.
Qed.

Lemma last_of_deposit (t : SnippetTray) (nm : string) (ps : list (Patch * Patch)) :
  exists pre, entries (deposit t nm ps) = pre ++ [mkTrayEntry nm ps 0].
Proof.
  unfold deposit.
  destruct (Nat.ltb 8 (List.length (entries t ++ [mkTrayEntry nm ps 0]))) eqn:B.
  - destruct (entries t) as [|e es]; [discriminate|].
    exists es. reflexivity.
  - exists (entries t). reflexivity.
Qed.

End AppFacts3.

Module GestureFacts.
Import Gesture.

Lemma sim_run_quit (pre post : list SimInput) :
  ~ In (KeyDown Quit) pre ->
  sim_run (pre ++ KeyDown Quit :: post) = sim_run pre ++ [App.Quit].
Proof.
  induction pre as [|x pre IH]; intros Hq; [reflexivity|].
  assert (Hq' : ~ In (KeyDown Quit) pre) by (intros Hin; apply Hq; right; exact Hin).
  destruct x as [k|k|nm]; [destruct k| |];
    cbn [app sim_run]; try rewrite (IH Hq'); try reflexivity.
  exfalso. apply Hq. left. reflexivity.
Qed.

Lemma sim_run_no_quit (ins : list SimInput) :
  ~ In (KeyDown Quit) ins ->
  ~ In App.Quit (sim_run ins) /\
  forall nm, In (App.Scissors nm) (sim_run ins) <-> In (SnippetName nm) ins.
Proof.
  induction ins as [|x ins IH]; intros Hq.
  - split; [intros []|]. intros nm. split; intros [].
  - assert (Hq' : ~ In (KeyDown Quit) ins) by (intros Hin; apply Hq; right; exact Hin).
    destruct (IH Hq') as [Hn Hs].
    destruct x as [k|k|nm']; [destruct k| |]; cbn [sim_run In];
      try (exfalso; apply Hq; left; reflexivity);
      (split; [intros Hin; try (destruct Hin as [Hin|Hin]; [discriminate Hin|]); exact (Hn Hin)|]);
      intros nm; rewrite <- (Hs nm); firstorder congruence.
Qed.

End GestureFacts.

(** X14: the pre-fill of [AppState::new] always succeeds: both ribbons get the given capacity and base, hold the left and right digits of the pairs the pre-fill stream yields, at the same strictly increasing positions below the capacity, coloured by [digit_color]; when the stream always yields, the positions are 0..capacity-1. *)
Theorem new_ribbons_prefill {St : Type} `{ZipStream St} (dc : Z -> Z -> Z)
    (cap : nat) (lb rb : Z) (pre : St) :
  exists L R, App.new_ribbons dc cap lb rb pre = Some (L, R) /\
    Ribbon.capacity L = cap /\ Ribbon.capacity R = cap /\
    Ribbon.base L = lb /\ Ribbon.base R = rb /\
    map Ribbon.digit (Ribbon.patches L) = map fst (App.pairs_of cap pre) /\
    map Ribbon.digit (Ribbon.patches R) = map snd (App.pairs_of cap pre) /\
    map Ribbon.position (Ribbon.patches L) = map Ribbon.position (Ribbon.patches R) /\
    StronglySorted lt (map Ribbon.position (Ribbon.patches L)) /\
    Forall (fun q => q < cap)%nat (map Ribbon.position (Ribbon.patches L)) /\
    Forall (fun p => Ribbon.color p = dc (Ribbon.digit p) lb) (Ribbon.patches L) /\
    Forall (fun p => Ribbon.color p = dc (Ribbon.digit p) rb) (Ribbon.patches R) /\
    ((forall s : St, fst (DS.zip_next s) <> None) ->
     map Ribbon.position (Ribbon.patches L) = seq 0 cap).
Proof.
  unfold App.new_ribbons.
  destruct (AppFacts3.prefill_spec dc cap 0 pre (Ribbon.mkRibbonState [] cap lb)
              (Ribbon.mkRibbonState [] cap rb) ltac:(cbn; lia) ltac:(cbn; lia))
    as (nl & nr & E & Hdl & Hdr & Hp & Hcl & Hcr & Hrg & Hs & Hy).
  rewrite E. cbn [Ribbon.patches Ribbon.capacity Ribbon.base app] in *.
  eexists _, _. split; [reflexivity|]. cbn [Ribbon.patches Ribbon.capacity Ribbon.base].
  repeat split; try assumption.
  eapply Forall_impl; [|exact Hrg]. intros q Hq. cbn beta in *. lia.
Qed.

Lemma new_ribbons_prefill_witness :
  exists L R, App.new_ribbons demo_color 3 16 2 demo_dual = Some (L, R) /\
    map Ribbon.position (Ribbon.patches L) = seq 0 3.
Proof.
  destruct (new_ribbons_prefill demo_color 3 16 2 demo_dual)
    as (L & R & E & _ & _ & _ & _ & _ & _ & _ & _ & _ & _ & _ & Hy).
  exists L, R. split; [exact E|]. apply Hy.
  intros s. simpl. discriminate.
Defined.

(** X15: while both ribbons have capacity at least 1 and at most capacity patches, no gesture panics and every gesture and frame tick keeps that invariant. *)
Theorem gesture_keeps_ribbons `{Dual.DigitSource} (dc : Z -> Z -> Z) (app : App.AppState)
    (ev : App.GestureEvent) (notes : list Player.NoteEvent) :
  (1 <= Ribbon.capacity (App.left_ribbon app))%nat ->
  (List.length (Ribbon.patches (App.left_ribbon app)) <= Ribbon.capacity (App.left_ribbon app))%nat ->
  (1 <= Ribbon.capacity (App.right_ribbon app))%nat ->
  (List.length (Ribbon.patches (App.right_ribbon app)) <= Ribbon.capacity (App.right_ribbon app))%nat ->
  exists app', App.handle_gesture dc app ev = Some app' /\
    (1 <= Ribbon.capacity (App.left_ribbon app'))%nat /\
    (List.length (Ribbon.patches (App.left_ribbon app')) <= Ribbon.capacity (App.left_ribbon app'))%nat /\
    (1 <= Ribbon.capacity (App.right_ribbon app'))%nat /\
    (List.length (Ribbon.patches (App.right_ribbon app')) <= Ribbon.capacity (App.right_ribbon app'))%nat /\
    App.left_ribbon (App.tick app' notes) = App.left_ribbon app' /\
    App.right_ribbon (App.tick app' notes) = App.right_ribbon app'.
Proof.
  intros Hl1 Hl2 Hr1 Hr2. destruct ev as [k v|k v| | | |nm|]; unfold App.handle_gesture.
  - destruct (AppFacts2.pull_ok dc true k (App.dual app) (App.left_ribbon app) Hl1 Hl2)
      as (ds' & r' & E & Hc & Hl). rewrite E.
    eexists. split; [reflexivity|]. cbn [App.left_ribbon App.right_ribbon]. repeat split; auto; lia.
  - destruct (AppFacts2.pull_ok dc false k (App.dual app) (App.right_ribbon app) Hr1 Hr2)
      as (ds' & r' & E & Hc & Hl). rewrite E.
    eexists. split; [reflexivity|]. cbn [App.left_ribbon App.right_ribbon]. repeat split; auto; lia.
  - eexists. split; [reflexivity|]. cbn [App.left_ribbon App.right_ribbon]. repeat split; auto.
  - destruct (App.play_state app);
      (eexists; split; [reflexivity|]); cbn [App.left_ribbon App.right_ribbon]; repeat split; auto.
  - destruct (App.play_state app);
      (eexists; split; [reflexivity|]); cbn [App.left_ribbon App.right_ribbon]; repeat split; auto.
  - eexists. split; [reflexivity|]. cbn [App.left_ribbon App.right_ribbon App.do_snip].
    repeat split; auto.
  - eexists. split; [reflexivity|]. repeat split; auto.
Qed.

Lemma gesture_keeps_ribbons_witness :
  exists app', App.handle_gesture demo_color demo_app (App.PullLeft 4 (9 # 10)) = Some app' /\
    (List.length (Ribbon.patches (App.left_ribbon app')) <= 5)%nat.
Proof.
  destruct (gesture_keeps_ribbons demo_color demo_app (App.PullLeft 4 (9 # 10)) [])
    as (app' & E & _ & Hl & _ & _ & _ & _); try (simpl; lia).
  exists app'. split; [exact E|].
  assert (Hc : Ribbon.capacity (App.left_ribbon app') = 5%nat).
  { vm_compute in E. injection E as <-. reflexivity. }
  lia.
Defined.

(** X16: with a ribbon capacity of 0 the pre-fill leaves both ribbons empty, and the first pull that reads a digit panics in [RibbonState::push] ([remove(0)] on an empty vector). *)
Theorem zero_capacity_panics {St : Type} `{ZipStream St} `{Dual.DigitSource}
    (dc : Z -> Z -> Z) :
  (forall (lb rb : Z) (pre : St),
     App.new_ribbons dc 0 lb rb pre =
       Some (Ribbon.mkRibbonState [] 0%nat lb, Ribbon.mkRibbonState [] 0%nat rb)) /\
  (forall (app : App.AppState) (k : nat) (v : Q) (d : Z) (c' : Dual.Cursor),
     Ribbon.capacity (App.left_ribbon app) = 0%nat ->
     Ribbon.patches (App.left_ribbon app) = [] ->
     Dual.next (Dual.left (App.dual app)) = (Some d, c') ->
     App.handle_gesture dc app (App.PullLeft (S k) v) = None).
Proof.
  split.
  - intros lb rb pre. reflexivity.
  - intros app k v d c' Hc Hp En. unfold App.handle_gesture. cbn [App.pull].
    rewrite En. rewrite RibbonFacts.push_empty_zero by assumption. reflexivity.
Qed.

Lemma zero_capacity_panics_witness :
  App.handle_gesture demo_color
    (App.mkAppState demo_dual (Ribbon.mkRibbonState [] 0%nat 16) (Ribbon.mkRibbonState [] 0%nat 2)
       [] App.Stopped Ribbon.Unstitched (Ribbon.mkSnippetTray []) None 0 None)
    (App.PullLeft 1 (f32_round (3 # 10))) = None.
Proof.
  apply (proj2 (zero_capacity_panics (St := Dual.DualStream) demo_color) _ 0%nat _ 10
           (Dual.mkCursor (Dual.mkSpigotConfig Dual.Pi 16) 11));
    reflexivity.
Defined.

(** X17: [StitchPhase::tick] keeps [is_stitched]; it reports a completed transition exactly when a Stitching or Unstitching phase becomes Stitched or Unstitched; Stitched and Unstitched do not change. *)
Theorem stitch_tick_phase (p : Ribbon.StitchPhase) :
  Ribbon.is_stitched (snd (Ribbon.stitch_tick p)) = Ribbon.is_stitched p /\
  (fst (Ribbon.stitch_tick p) = true <->
     (exists pr, p = Ribbon.Stitching pr \/ p = Ribbon.Unstitching pr) /\
     (snd (Ribbon.stitch_tick p) = Ribbon.Stitched \/
      snd (Ribbon.stitch_tick p) = Ribbon.Unstitched)) /\
  (p = Ribbon.Stitched \/ p = Ribbon.Unstitched -> Ribbon.stitch_tick p = (false, p)).
Proof.
  destruct p as [|pr| |pr]; unfold Ribbon.stitch_tick.
  - split; [reflexivity|]. split; [|intros _; reflexivity].
    split; [discriminate|]. intros ([pr [E|E]] & _); discriminate.
  - destruct (Qle_bool 1 (f32_add pr f32_0_05)); cbn [fst snd Ribbon.is_stitched].
    + split; [reflexivity|]. split; [|intros [E|E]; discriminate].
      split; [intros _; split; [exists pr; left; reflexivity | left; reflexivity] | reflexivity].
    + split; [reflexivity|]. split; [|intros [E|E]; discriminate].
      split; [discriminate|]. intros (_ & [E|E]); discriminate.
  - split; [reflexivity|]. split; [|intros _; reflexivity].
    split; [discriminate|]. intros ([pr [E|E]] & _); discriminate.
  - destruct (Qle_bool 1 (f32_add pr f32_0_05)); cbn [fst snd Ribbon.is_stitched].
    + split; [reflexivity|]. split; [|intros [E|E]; discriminate].
      split; [intros _; split; [exists pr; right; reflexivity | right; reflexivity] | reflexivity].
    + split; [reflexivity|]. split; [|intros [E|E]; discriminate].
      split; [discriminate|]. intros (_ & [E|E]); discriminate.
Qed.

Lemma stitch_tick_phase_witness :
  Ribbon.stitch_tick Ribbon.Stitched = (false, Ribbon.Stitched).
Proof.
  apply (proj2 (proj2 (stitch_tick_phase Ribbon.Stitched))). left. reflexivity.
Defined.

(** X18: on a tray whose slide-in values are non-negative (as every tray
    is: [deposit] starts an entry at 0), [SnippetTray::tick] keeps each
    entry's name and patches, never decreases a slide-in value, never
    takes one past 1, and keeps them non-negative ([f32] arithmetic). *)
Theorem tray_tick_slide (t : Ribbon.SnippetTray) :
  Forall (fun e => (0 <= Ribbon.slide_in e)%Q) (Ribbon.entries t) ->
  map Ribbon.name (Ribbon.entries (Ribbon.tray_tick t)) = map Ribbon.name (Ribbon.entries t) /\
  map Ribbon.tpatches (Ribbon.entries (Ribbon.tray_tick t)) =
    map Ribbon.tpatches (Ribbon.entries t) /\
  Forall2 (fun e e' => (Ribbon.slide_in e <= Ribbon.slide_in e')%Q /\
                       ((Ribbon.slide_in e <= 1)%Q -> (Ribbon.slide_in e' <= 1)%Q))
    (Ribbon.entries t) (Ribbon.entries (Ribbon.tray_tick t)) /\
  Forall (fun e => (0 <= Ribbon.slide_in e)%Q) (Ribbon.entries (Ribbon.tray_tick t)).
Proof.
  rewrite AppFacts3.tray_tick_entries. rewrite !map_map.
  induction (Ribbon.entries t) as [|e es IH]; intros H0; cbn [map].
  - split; [reflexivity|]. split; [reflexivity|]. split; constructor.
  - inversion H0 as [|? ? He Hes]; subst.
    destruct (IH Hes) as (IHn & IHp & IHs & IH0).
    pose proof (AppFacts3.slide_next_bounds (Ribbon.slide_in e) He) as (B0 & B1 & B2).
    unfold AppFacts3.slide_next in B0, B1, B2.
    destruct (Qle_bool 1 (Ribbon.slide_in e)) eqn:B;
      cbn [Ribbon.name Ribbon.tpatches Ribbon.slide_in];
      rewrite IHn, IHp; (split; [reflexivity|]); (split; [reflexivity|]);
      (split; constructor; [cbv beta; cbn [Ribbon.slide_in]; split; assumption | exact IHs
                           | cbv beta; cbn [Ribbon.slide_in]; assumption | exact IH0]).
Qed.

Lemma tray_tick_slide_witness :
  Forall2 (fun e e' => (Ribbon.slide_in e <= Ribbon.slide_in e')%Q /\
                       ((Ribbon.slide_in e <= 1)%Q -> (Ribbon.slide_in e' <= 1)%Q))
    [Ribbon.mkTrayEntry "pi"%string [] (24 # 25)]
    (Ribbon.entries (Ribbon.tray_tick (Ribbon.mkSnippetTray [Ribbon.mkTrayEntry "pi"%string [] (24 # 25)]))).
Proof.
  exact (proj1 (proj2 (proj2 (tray_tick_slide
           (Ribbon.mkSnippetTray [Ribbon.mkTrayEntry "pi"%string [] (24 # 25)])
           ltac:(repeat constructor; apply Qle_bool_iff; reflexivity))))).
Defined.

(** X19: a deposited entry stays the last of the tray through the ticks,
    with its name and patches; its slide-in stays in [0, 1) for the first
    12 ticks and is exactly 1 from the 13th tick on ([f32] arithmetic:
    thirteen steps of [0.08f32]). *)
Theorem deposit_slides_in (t : Ribbon.SnippetTray) (nm : string)
    (ps : list (Ribbon.Patch * Ribbon.Patch)) (n : nat) :
  exists pre e',
    Ribbon.entries (Nat.iter n Ribbon.tray_tick (Ribbon.deposit t nm ps)) = pre ++ [e'] /\
    Ribbon.name e' = nm /\ Ribbon.tpatches e' = ps /\
    ((n < 13)%nat -> (0 <= Ribbon.slide_in e' < 1)%Q) /\
    ((13 <= n)%nat -> Ribbon.slide_in e' = 1%Q).
Proof.
  assert (Hs : exists pre e',
    Ribbon.entries (Nat.iter n Ribbon.tray_tick (Ribbon.deposit t nm ps)) = pre ++ [e'] /\
    Ribbon.name e' = nm /\ Ribbon.tpatches e' = ps /\
    Ribbon.slide_in e' = Nat.iter n AppFacts3.slide_next 0%Q).
  { induction n as [|n (pre & e' & E & Hn & Hp & H)].
    - destruct (AppFacts3.last_of_deposit t nm ps) as [pre E].
      exists pre, (Ribbon.mkTrayEntry nm ps 0). cbn [Nat.iter].
      split; [exact E|]. split; [reflexivity|]. split; reflexivity.
    - rewrite !Nat.iter_succ, AppFacts3.tray_tick_entries, E, map_app, <- H. cbn [map].
      eexists _, _. split; [reflexivity|]. unfold AppFacts3.slide_next.
      destruct (Qle_bool 1 (Ribbon.slide_in e')); cbn [Ribbon.name Ribbon.tpatches Ribbon.slide_in];
        (split; [exact Hn|]); (split; [exact Hp|]); reflexivity. }
  destruct Hs as (pre & e' & E & Hn & Hp & H).
  exists pre, e'. split; [exact E|]. split; [exact Hn|]. split; [exact Hp|]. rewrite H.
  split; [apply AppFacts3.slide_next_iter_lt|].
  intros Hn13. replace n with (13 + (n - 13))%nat by lia. apply AppFacts3.slide_next_iter_13.
Qed.

Lemma deposit_slides_in_witness :
  exists pre e',
    Ribbon.entries (Nat.iter 13 Ribbon.tray_tick
                      (Ribbon.deposit (Ribbon.mkSnippetTray []) "pi"%string [])) = pre ++ [e'] /\
    Ribbon.slide_in e' = 1%Q.
Proof.
  destruct (deposit_slides_in (Ribbon.mkSnippetTray []) "pi"%string [] 13)
    as (pre & e' & E & _ & _ & _ & H2).
  exists pre, e'. split; [exact E | apply H2; lia].
Defined.

(** X20: the simulated gesture source forwards the events before the first Quit key and then a single Quit, and stops: a Quit event is always the last one sent. *)
Theorem sim_run_quit_last (ins : list Gesture.SimInput) :
  (forall pre post, ~ In (Gesture.KeyDown Gesture.Quit) pre ->
     Gesture.sim_run (pre ++ Gesture.KeyDown Gesture.Quit :: post) =
       Gesture.sim_run pre ++ [App.Quit]) /\
  (forall pre post, Gesture.sim_run ins = pre ++ App.Quit :: post ->
     post = [] /\ ~ In App.Quit pre).
Proof.
  split; [intros pre post; apply GestureFacts.sim_run_quit|].
  induction ins as [|x ins IH]; intros pre post E.
  - destruct pre; discriminate.
  - destruct x as [k|k|nm]; [destruct k| |]; cbn [Gesture.sim_run] in E;
      try exact (IH pre post E);
      try (destruct pre as [|y pre]; [discriminate|];
           injection E as Ey E; destruct (IH pre post E) as [Hp Hn];
           split; [exact Hp | intros [Hq|Hq]; [subst y; discriminate | exact (Hn Hq)]]).
    destruct pre as [|y pre].
    + injection E as E2. split; [symmetry; exact E2 | intros []].
    + injection E as E1 E2. destruct pre; discriminate.
Qed.

Lemma sim_run_quit_last_witness :
  Gesture.sim_run [Gesture.KeyDown Gesture.Clap; Gesture.KeyDown Gesture.Quit;
                   Gesture.KeyDown Gesture.Twist] = [App.Clap; App.Quit].
Proof.
  exact (proj1 (sim_run_quit_last []) [Gesture.KeyDown Gesture.Clap] [Gesture.KeyDown Gesture.Twist]
           ltac:(simpl; intros [E|[]]; discriminate)).
Defined.

(** X21: key-up inputs send nothing; before a Quit key, no Quit event is
    sent and every snippet name typed is sent as a Scissors event with
    that name. *)
Theorem sim_run_scissors (ins : list Gesture.SimInput) :
  (forall k, Gesture.sim_run (Gesture.KeyUp k :: ins) = Gesture.sim_run ins) /\
  (~ In (Gesture.KeyDown Gesture.Quit) ins ->
   ~ In App.Quit (Gesture.sim_run ins) /\
   forall nm, In (Gesture.SnippetName nm) ins -> In (App.Scissors nm) (Gesture.sim_run ins)).
Proof.
  split; [intros k; reflexivity|]. intros Hq.
  destruct (GestureFacts.sim_run_no_quit ins Hq) as [Hn Hs].
  split; [exact Hn|]. intros nm. apply Hs.
Qed.

Lemma sim_run_scissors_witness :
  In (App.Scissors "pi"%string) (Gesture.sim_run [Gesture.KeyDown Gesture.Clap; Gesture.SnippetName "pi"%string]).
Proof.
  apply (proj2 (proj2 (sim_run_scissors [Gesture.KeyDown Gesture.Clap; Gesture.SnippetName "pi"%string])
          ltac:(simpl; intros [E|[E|[]]]; discriminate)) "pi"%string).
  simpl. right. left. reflexivity.
Defined.

(** X22: a Quit in a command batch ends the playback thread at once: the commands before it are applied, the ones after it and all later batches are never taken off the channel, and no note is played. *)
Theorem player_quit_batch {S : Type} `{ZipStream S} (cfg : Player.PlayerParams)
    (pre post : list Player.PlayerCommand) (bs : list (list Player.PlayerCommand))
    (st : Player.PlayerState S) :
  ~ In Player.Quit pre ->
  Player.run cfg ((pre ++ Player.Quit :: post) :: bs) st =
    fst (Player.drain cfg st pre) ++ [Player.Received Player.Quit].
Proof.
  intros Hq. cbn [Player.run]. rewrite (AppFacts2.drain_quit cfg pre post Hq st). reflexivity.
Qed.

Lemma player_quit_batch_witness :
  Player.run demo_params (([Player.SetTempo 90; Player.Play] ++ Player.Quit :: [Player.Stop])
                          :: [[Player.Play]])
    (Player.mkPlayerState (0%nat, [(1, 2)]) 0 120 false) =
  [Player.Received (Player.SetTempo 90); Player.Received Player.Play;
   Player.ProgramChange 0 0; Player.Received Player.Quit].
Proof.
  rewrite (player_quit_batch demo_params [Player.SetTempo 90; Player.Play] [Player.Stop]
             [[Player.Play]] (Player.mkPlayerState (0%nat, [(1, 2)]) 0 120 false)).
  - reflexivity.
  - simpl. intros [E|[E|[]]]; discriminate.
Defined.

(** X23: while no Play command arrives, the playback thread only takes commands, sends program changes and sleeps 10 ms per iteration: it plays and reports no note. *)
Theorem player_stopped_silent {S : Type} `{ZipStream S} (cfg : Player.PlayerParams)
    (s : S) (instrument0 tempo0 : Z) (batches : list (list Player.PlayerCommand)) :
  Forall (fun b => ~ In Player.Play b) batches ->
  Forall (fun e => match e with
                   | Player.Received _ | Player.ProgramChange _ _ => True
                   | Player.SleepMs ms => ms = 10
                   | _ => False
                   end)
    (Player.player_thread cfg s instrument0 tempo0 batches).
Proof.
  intros HF. unfold Player.player_thread. constructor; [exact I|].
  assert (Hgen : forall st : Player.PlayerState S, Player.playing st = false ->
    Forall (fun e => match e with
                     | Player.Received _ | Player.ProgramChange _ _ => True
                     | Player.SleepMs ms => ms = 10
                     | _ => False
                     end) (Player.run cfg batches st)).
  { induction HF as [|b bs Hb _ IH]; intros st Hs; cbn [Player.run]; [constructor|].
    destruct (AppFacts2.drain_stopped cfg b Hb st Hs) as [Hd Hr].
    destruct (Player.drain cfg st b) as [acts [st1|]]; cbn [fst snd] in Hd, Hr.
    - specialize (Hr st1 eq_refl). unfold Player.play_step. rewrite Hr. cbn [negb].
      apply Forall_app. split.
      + eapply Forall_impl; [|exact Hd]. intros e He. destruct e; tauto.
      + cbn [app]. constructor; [reflexivity|]. exact (IH st1 Hr).
    - eapply Forall_impl; [|exact Hd]. intros e He. destruct e; tauto. }
  apply Hgen. reflexivity.
Qed.

Lemma player_stopped_silent_witness :
  Player.player_thread demo_params (0%nat, [(1, 2)]) 0 120 [[Player.SetTempo 90; Player.Stop]; []] =
  [Player.ProgramChange 0 0; Player.Received (Player.SetTempo 90); Player.Received Player.Stop;
   Player.SleepMs 10; Player.SleepMs 10] /\
  Forall (fun e => match e with
                   | Player.Received _ | Player.ProgramChange _ _ => True
                   | Player.SleepMs ms => ms = 10
                   | _ => False
                   end)
    (Player.player_thread demo_params (0%nat, [(1, 2)]) 0 120 [[Player.SetTempo 90; Player.Stop]; []]).
Proof.
  split; [reflexivity|].
  apply player_stopped_silent.
  repeat constructor; simpl; intros H; repeat destruct H as [H|H]; try discriminate; exact H.
Defined.

(** X24: [ticks_to_ms] is at least 50; for [u32] ticks it is monotone in the ticks and antitone in a positive tempo and resolution (the [u64] product cannot wrap). *)
Theorem ticks_to_ms_monotone (ticks ticks' tpq tpq' bpm bpm' : Z) :
  50 <= ticks_to_ms ticks tpq bpm /\
  (0 <= ticks <= ticks' -> ticks' < u32_max ->
   ticks_to_ms ticks tpq bpm <= ticks_to_ms ticks' tpq bpm) /\
  (0 <= ticks < u32_max -> 1 <= bpm <= bpm' ->
   ticks_to_ms ticks tpq bpm' <= ticks_to_ms ticks tpq bpm) /\
  (0 <= ticks < u32_max -> 1 <= tpq <= tpq' ->
   ticks_to_ms ticks tpq' bpm <= ticks_to_ms ticks tpq bpm).
Proof.
  assert (Hmpb : forall b, 0 <= 60000 / Z.max b 1 <= 60000).
  { intros b. split; [apply Z.div_pos; lia|].
    apply Z.div_le_upper_bound; lia. }
  assert (Hnowrap : forall t b, 0 <= t < u32_max ->
            (t * (60000 / Z.max b 1)) mod u64_max = t * (60000 / Z.max b 1)).
  { intros t b Ht. apply Z.mod_small. specialize (Hmpb b).
    unfold u32_max, u64_max in *. nia. }
  unfold ticks_to_ms. split; [lia|]. split; [|split].
  - intros Ht Ht'. rewrite !Hnowrap by lia. apply Z.max_le_compat_r.
    apply Z.div_le_mono; [lia|]. apply Z.mul_le_mono_nonneg_r; [apply Hmpb | lia].
  - intros Ht Hb. rewrite !Hnowrap by lia. apply Z.max_le_compat_r.
    apply Z.div_le_mono; [lia|]. apply Z.mul_le_mono_nonneg_l; [lia|].
    apply Z.div_le_compat_l; lia.
  - intros Ht Hq. rewrite !Hnowrap by lia. apply Z.max_le_compat_r.
    apply Z.div_le_compat_l; [pose proof (Hmpb bpm); nia | lia].
Qed.

Lemma ticks_to_ms_monotone_witness :
  ticks_to_ms 480 480 120 <= ticks_to_ms 960 480 120 /\
  ticks_to_ms 480 480 240 <= ticks_to_ms 480 480 120.
Proof.
  destruct (ticks_to_ms_monotone 480 960 480 480 120 240) as (_ & H1 & H2 & _).
  split; [apply H1 | apply H2]; unfold u32_max; lia.
Defined.
